(** * pymc3.distributions.timeseries: log-densities of time-series distributions

    A shallow embedding of [pymc3/distributions/timeseries.py].

    Conventions of the embedding.
    - Tensor elements are real numbers ([R]): the file states the mathematical
      contract of each density, so rounding of the float dtype is outside the
      model.
    - A tensor is a 0-d value ([Scalar]) or a 1-d array ([Vector]); elementwise
      operators broadcast a scalar, or an axis of length one, against the other
      operand and fail on any other length mismatch.
    - Python exceptions are values of [exn]; fallible code lives in [result].
    - A graph is evaluated as theano's default mode does: an element indexed
      out of the bounds raises when its value is read, not when the index is
      written.  [GaussianRandomWalk.logp] hands [x[0]] to [init.logp] in this
      deferred form, so an [init] that reads only the shape of its argument
      (Flat) never triggers the bounds check.
    - Slices follow Python: negative bounds count from the end and every bound
      is clamped to the length.
    - The scalar Normal log-density belongs to [.continuous], which is not part
      of this file; it is the parameter [logpdf] of the class [NormalDensity].
    - The base-class constructor is taken to succeed; of what it stores only
      [shape] is kept.  The attributes [mean] and [mode], the sampler
      [random] and the LaTeX renderers play no part in the properties below
      and are left out. *)

From Stdlib Require Import Reals.Reals List ZArith Lia Lra Bool.
Import ListNotations.

Open Scope R_scope.

(** ** Exceptions and the error monad *)

Inductive exn : Type :=
| TypeError        (* raise TypeError(...) in GaussianRandomWalk.__init__ *)
| ValueError       (* conflicting or missing scale parameters *)
| IndexError       (* index out of bounds, or indexing a 0-d tensor *)
| NotImplementedError  (* theano.scan asked for zero iterations *)
| AttributeError   (* an attribute the object does not have *)
| BroadcastError   (* operands whose lengths cannot be broadcast *)
| NoOperands.      (* tt.add called on an empty argument list *)

Inductive result (A : Type) : Type :=
| Ok (a : A)
| Raise (e : exn).

Arguments Ok {A} a.
Arguments Raise {A} e.

Definition bind {A B : Type} (m : result A) (k : A -> result B) : result B :=
  match m with
  | Ok a => k a
  | Raise e => Raise e
  end.

Notation "x <- m ;; k" := (bind m (fun x => k))
  (at level 61, m at next level, right associativity).
Notation "' p <- m ;; k" := (bind m (fun p => k))
  (at level 61, p pattern, m at next level, right associativity).

(** The spec's error taxonomy (a): errors raised at construction. *)
Definition configuration_error (e : exn) : bool :=
  match e with
  | TypeError | ValueError => true
  | _ => false
  end.

Fixpoint mapM {A B : Type} (f : A -> result B) (l : list A) : result (list B) :=
  match l with
  | [] => Ok []
  | a :: r => b <- f a ;; bs <- mapM f r ;; Ok (b :: bs)
  end.

(** ** Tensors *)

Inductive tensor (A : Type) : Type :=
| Scalar (a : A)
| Vector (l : list A).

Arguments Scalar {A} a.
Arguments Vector {A} l.

Definition ndim {A : Type} (t : tensor A) : nat :=
  match t with
  | Scalar _ => 0
  | Vector _ => 1
  end.

Definition tmap {A B : Type} (f : A -> B) (t : tensor A) : tensor B :=
  match t with
  | Scalar a => Scalar (f a)
  | Vector l => Vector (map f l)
  end.

(** Broadcasting of two operands to a common shape. *)
Definition tzip {A B : Type} (a : tensor A) (b : tensor B) : result (tensor (A * B)) :=
  match a, b with
  | Scalar x, Scalar y => Ok (Scalar (x, y))
  | Scalar x, Vector l => Ok (Vector (map (fun y => (x, y)) l))
  | Vector l, Scalar y => Ok (Vector (map (fun x => (x, y)) l))
  | Vector l1, Vector l2 =>
      if Nat.eqb (length l1) (length l2) then Ok (Vector (combine l1 l2))
      else match l1, l2 with
           | [x], _ => Ok (Vector (map (fun y => (x, y)) l2))
           | _, [y] => Ok (Vector (map (fun x => (x, y)) l1))
           | _, _ => Raise BroadcastError
           end
  end.

Definition elemwise {A B C : Type} (f : A -> B -> C) (a : tensor A) (b : tensor B)
  : result (tensor C) :=
  ab <- tzip a b ;; Ok (tmap (fun p => f (fst p) (snd p)) ab).

(** *** Python indexing and slicing *)

Definition clamp (len i : Z) : Z :=
  if (i <? 0)%Z then Z.max 0 (i + len) else Z.min i len.

(** [l[start:stop]] *)
Definition slice {A : Type} (start stop : option Z) (l : list A) : list A :=
  let n := Z.of_nat (length l) in
  let lo := match start with None => 0%Z | Some i => clamp n i end in
  let hi := match stop with None => n | Some j => clamp n j end in
  firstn (Z.to_nat (hi - lo)) (skipn (Z.to_nat lo) l).

Definition getslice {A : Type} (t : tensor A) (start stop : option Z) : result (tensor A) :=
  match t with
  | Scalar _ => Raise IndexError
  | Vector l => Ok (Vector (slice start stop l))
  end.

(** [t[i]] *)
Definition getitem {A : Type} (t : tensor A) (i : Z) : result (tensor A) :=
  match t with
  | Scalar _ => Raise IndexError
  | Vector l =>
      let n := Z.of_nat (length l) in
      let j := if (i <? 0)%Z then (i + n)%Z else i in
      if ((j <? 0) || (n <=? j))%Z then Raise IndexError
      else match nth_error l (Z.to_nat j) with
           | Some a => Ok (Scalar a)
           | None => Raise IndexError
           end
  end.

(** [t[i]] as a node of the graph: indexing a 0-d tensor is refused when
    the graph is built, the bounds are checked when the element is read. *)
Definition getitem_deferred {A : Type} (t : tensor A) (i : Z)
  : result (tensor (result A)) :=
  match t with
  | Scalar _ => Raise IndexError
  | Vector _ =>
      Ok (Scalar (match getitem t i with
                  | Ok (Scalar a) => Ok a
                  | Ok (Vector _) => Raise IndexError
                  | Raise e => Raise e
                  end))
  end.

(** [range(p)] *)
Definition range (p : Z) : list Z := map Z.of_nat (seq 0 (Z.to_nat p)).

Definition sumR (l : list R) : R := fold_right Rplus 0 l.

(** ** The tensor operations the module uses ([theano.tensor]) *)

Module tt.

Definition mul : tensor R -> tensor R -> result (tensor R) := elemwise Rmult.
Definition sub : tensor R -> tensor R -> result (tensor R) := elemwise Rminus.
Definition add2 : tensor R -> tensor R -> result (tensor R) := elemwise Rplus.

(** [tt.add] applied to an unpacked list of terms *)
Definition add (terms : list (tensor R)) : result (tensor R) :=
  match terms with
  | [] => Raise NoOperands
  | t :: ts => fold_left (fun acc u => a <- acc ;; add2 a u) ts (Ok t)
  end.

(** The value of [tt.sum], a 0-d tensor. *)
Definition total (t : tensor R) : R :=
  match t with
  | Scalar a => a
  | Vector l => sumR l
  end.

Definition sum (t : tensor R) : tensor R := Scalar (total t).

Definition sqrt (t : tensor R) : tensor R := tmap R_sqrt.sqrt t.
Definition square (t : tensor R) : tensor R := tmap Rsqr t.
Definition pow (t : tensor R) (n : nat) : tensor R := tmap (fun a => a ^ n) t.
Definition zeros_like {A : Type} (t : tensor A) : tensor R := tmap (fun _ => 0) t.

End tt.

(** The outputs of a scan with one sequence and one recurrent output: the
    step function receives the current element and the previous output. *)
Fixpoint scan_outputs {A B : Type} (fn : A -> B -> B) (sequences : list A)
    (outputs_info : B) : list B :=
  match sequences with
  | [] => []
  | a :: rest => let v := fn a outputs_info in v :: scan_outputs fn rest v
  end.

(** [theano.scan]: it runs one step per element of the sequence and refuses
    to run no step at all. *)
Definition scan {A B : Type} (fn : A -> B -> B) (sequences : list A) (outputs_info : B)
  : result (list B) :=
  match sequences with
  | [] => Raise NotImplementedError
  | _ :: _ => Ok (scan_outputs fn sequences outputs_info)
  end.

(** ** What the module imports from [.continuous] and [.distribution] *)

Module distribution.

(** A continuous distribution, as far as this module uses one: its [logp],
    as the graph it builds over an argument whose elements may be deferred
    reads. *)
Record Continuous : Type := { logp_graph : tensor (result R) -> result (tensor R) }.

(** [logp] on a value that is there. *)
Definition logp (self : Continuous) (value : tensor R) : result (tensor R) :=
  logp_graph self (tmap Ok value).

(** Reading the elements of an argument, for a graph that uses their values. *)
Definition force (value : tensor (result R)) : result (tensor R) :=
  match value with
  | Scalar r => a <- r ;; Ok (Scalar a)
  | Vector l => l' <- mapM (fun r => r) l ;; Ok (Vector l')
  end.

End distribution.

(** Modelled from the spec: [get_tau_sigma] of [.continuous], which is not in
    this file.  "resolve_scale(tau?, sigma?) -> (tau, sigma), fails with a
    configuration error unless exactly one input is provided", with
    "tau = 1/sigma^2"; both members of the pair are always available. *)
Definition get_tau_sigma (tau sigma : option (tensor R)) : result (tensor R * tensor R) :=
  match tau, sigma with
  | None, Some s => Ok (tmap (fun a => / (a ^ 2)) s, s)
  | Some t, None => Ok (t, tmap (fun a => / R_sqrt.sqrt a) t)
  | None, None => Raise ValueError
  | Some _, Some _ => Raise ValueError
  end.

(** The scalar Normal log-density [logpdf mu tau sigma value], given the mean
    and the canonical scale pair. *)
Class NormalDensity : Type := logpdf : R -> R -> R -> R -> R.

Module Normal.

Record t : Type := { mu : tensor R; tau : tensor R; sigma : tensor R }.

(** [Normal.dist(mu, sigma=..., tau=...)] *)
Definition dist (mu : tensor R) (sigma tau : option (tensor R)) : result t :=
  ' (tau, sigma) <- get_tau_sigma tau sigma ;;
  Ok {| mu := mu; tau := tau; sigma := sigma |}.

(** The density applied elementwise, all operands broadcast together. *)
Definition logp `{NormalDensity} (self : t) (value : tensor R) : result (tensor R) :=
  vm <- tzip value (mu self) ;;
  ts <- tzip (tau self) (sigma self) ;;
  all <- tzip ts vm ;;
  Ok (tmap (fun q => logpdf (snd (snd q)) (fst (fst q)) (snd (fst q)) (fst (snd q))) all).

End Normal.

Module Flat.

(** Modelled from the spec: [Flat] of [.continuous], which is not in this
    file: the "improper flat prior", whose log-density is zero at every
    point of its argument. *)
Definition dist : distribution.Continuous :=
  {| distribution.logp_graph := fun value => Ok (tt.zeros_like value) |}.

End Flat.

(** A keyword argument left out takes its default. *)
Definition default {A : Type} (d : A) (arg : option A) : A :=
  match arg with
  | Some a => a
  | None => d
  end.

(** ** AR1 *)

Module AR1.

Record t : Type := { k : tensor R; tau_e : tensor R; tau : tensor R }.

Definition __init__ (k tau_e : tensor R) : result t :=
  one_minus_k2 <- tt.sub (Scalar 1) (tt.pow k 2) ;;
  tau <- tt.mul tau_e one_minus_k2 ;;
  Ok {| k := k; tau_e := tau_e; tau := tau |}.

Definition logp `{NormalDensity} (self : t) (x : tensor R) : result (tensor R) :=
  let k := k self in
  let tau_e := tau_e self in
  x_im1 <- getslice x None (Some (-1)%Z) ;;
  x_i <- getslice x (Some 1%Z) None ;;
  boundary <- Normal.dist (Scalar 0) None (Some tau_e) ;;
  k_x_im1 <- tt.mul k x_im1 ;;
  innov <- Normal.dist k_x_im1 None (Some tau_e) ;;
  innov_like <- Normal.logp innov x_i ;;
  x_0 <- getitem x 0 ;;
  boundary_like <- Normal.logp boundary x_0 ;;
  tt.add2 boundary_like (tt.sum innov_like).

End AR1.

(** ** AR(p) *)

(** What is passed as [rho]: a Python list of coefficients or a numpy array, a
    tensor variable carrying a test value (as every variable of a model
    does), or a plain Python number.  A tensor written where [rho] is
    expected stands for the list or array of that content. *)
Inductive rho_arg : Type :=
| ndarray (content : tensor R)
| TensorVariable (content : tensor R)
| number (a : R).

#[warning="-uniform-inheritance"] Coercion ndarray : tensor >-> rho_arg.

(** [tt.as_tensor_variable(rho)] *)
Definition as_tensor_variable (rho : rho_arg) : tensor R :=
  match rho with
  | ndarray content => content
  | TensorVariable content => content
  | number a => Scalar a
  end.

Module AR.

Record t : Type := {
  sigma : tensor R;
  tau : tensor R;
  p : Z;
  constant : bool;
  rho : tensor R;
  init : distribution.Continuous
}.

(** The lag order is [len(rho)] for a list.  Otherwise it is read off the
    shape: the test value of [rho.shape] for a tensor variable, an array with
    a [size], which is 0 for a 0-d variable and then gives [p = 1]; the tuple
    [rho.shape] for a numpy array, which has no [size], so that [shape_[0]] is
    the length of a 1-d array and is out of range for a 0-d one.  A Python
    number has no [shape] at all. *)
Definition __init__ (rho : rho_arg) (sigma tau : option (tensor R)) (constant : bool)
    (init : option distribution.Continuous) (sd : option (tensor R)) : result t :=
  let sigma := match sd with Some s => Some s | None => sigma end in
  ' (tau, sigma) <- get_tau_sigma tau sigma ;;
  p <- match rho with
       | ndarray (Vector l) => Ok (Z.of_nat (length l))
       | ndarray (Scalar _) => Raise IndexError
       | TensorVariable (Scalar _) => Ok 1%Z
       | TensorVariable (Vector l) => Ok (Z.of_nat (length l))
       | number _ => Raise AttributeError
       end ;;
  Ok {| sigma := sigma; tau := tau;
        p := if constant then (p - 1)%Z else p;
        constant := constant; rho := as_tensor_variable rho;
        init := default Flat.dist init |}.

(** [rho[i + off] * value[p - (i + 1) : -(i + 1)]], one term of the prediction *)
Definition lag_term (self : t) (off : Z) (value : tensor R) (i : Z) : result (tensor R) :=
  rho_i <- getitem (rho self) (i + off) ;;
  lagged <- getslice value (Some (p self - (i + 1))%Z) (Some (- (i + 1))%Z) ;;
  tt.mul rho_i lagged.

(** The innovation residuals [eps] of [logp]. *)
Definition eps (self : t) (value : tensor R) : result (tensor R) :=
  if constant self then
    terms <- mapM (lag_term self 1 value) (range (p self)) ;;
    x <- tt.add terms ;;
    tail <- getslice value (Some (p self)) None ;;
    rho_0 <- getitem (rho self) 0 ;;
    centred <- tt.sub tail rho_0 ;;
    tt.sub centred x
  else
    x <- (if (p self =? 1)%Z then
            value_im1 <- getslice value None (Some (-1)%Z) ;;
            tt.mul (rho self) value_im1
          else
            terms <- mapM (lag_term self 0 value) (range (p self)) ;;
            tt.add terms) ;;
    tail <- getslice value (Some (p self)) None ;;
    tt.sub tail x.

Definition logp `{NormalDensity} (self : t) (value : tensor R) : result (tensor R) :=
  eps <- eps self value ;;
  innov <- Normal.dist (Scalar 0) None (Some (tau self)) ;;
  innov_like <- Normal.logp innov eps ;;
  head <- getslice value None (Some (p self)) ;;
  init_like <- distribution.logp (init self) head ;;
  tt.add2 (tt.sum innov_like) (tt.sum init_like).

End AR.

(** ** GaussianRandomWalk *)

Module GaussianRandomWalk.

Record t : Type := {
  shape : list nat;
  tau : tensor R;
  sigma : tensor R;
  mu : tensor R;
  init : distribution.Continuous
}.

(** [shape] is the tuple of dimensions the base class stores; it defaults
    to 1. *)
Definition __init__ (tau : option (tensor R)) (init : option distribution.Continuous)
    (sigma : option (tensor R)) (mu : option (tensor R)) (sd : option (tensor R))
    (shape : option (list nat)) : result t :=
  let shape := default [1%nat] shape in
  if Nat.eqb (list_sum shape) 0 then Raise TypeError
  else
    let sigma := match sd with Some s => Some s | None => sigma end in
    ' (tau, sigma) <- get_tau_sigma tau sigma ;;
    Ok {| shape := shape; tau := tau; sigma := sigma;
          mu := default (Scalar 0) mu;
          init := default Flat.dist init |}.

Definition _mu_and_sigma (mu sigma : tensor R) : result (tensor R * tensor R) :=
  sigma <- (if Nat.ltb 0 (ndim sigma) then getslice sigma (Some 1%Z) None else Ok sigma) ;;
  mu <- (if Nat.ltb 0 (ndim mu) then getslice mu (Some 1%Z) None else Ok mu) ;;
  Ok (mu, sigma).

Definition logp `{NormalDensity} (self : t) (x : tensor R) : result (tensor R) :=
  if Nat.ltb 0 (ndim x) then
    x_im1 <- getslice x None (Some (-1)%Z) ;;
    x_i <- getslice x (Some 1%Z) None ;;
    ' (mu, sigma) <- _mu_and_sigma (mu self) (sigma self) ;;
    mean <- tt.add2 x_im1 mu ;;
    innov <- Normal.dist mean (Some sigma) None ;;
    innov_like <- Normal.logp innov x_i ;;
    x_0 <- getitem_deferred x 0 ;;
    init_like <- distribution.logp_graph (init self) x_0 ;;
    tt.add2 init_like (tt.sum innov_like)
  else distribution.logp (init self) x.

End GaussianRandomWalk.

(** ** GARCH11 *)

Module GARCH11.

(** The four parameters are 0-d tensors.  The class documents [omega > 0],
    [alpha_1 >= 0], [beta_1 >= 0] and [initial_vol >= 0]; with [omega],
    [alpha_1] and [beta_1] not below zero every radicand of
    [volatility_update] is a real square.  Below zero [tt.sqrt] has no real
    value (it is nan), and nothing is stated here about the size of such a
    volatility. *)
Record t : Type := { omega : R; alpha_1 : R; beta_1 : R; initial_vol : R }.

Definition volatility_update (x vol w a b : R) : R :=
  sqrt (w + a * Rsqr x + b * Rsqr vol).

Definition get_volatility (self : t) (x : tensor R) : result (tensor R) :=
  x <- getslice x None (Some (-1)%Z) ;;
  match x with
  | Scalar _ => Raise IndexError
  | Vector xs =>
      vol <- scan (fun x vol =>
                     volatility_update x vol (omega self) (alpha_1 self) (beta_1 self))
                  xs (initial_vol self) ;;
      Ok (Vector ([initial_vol self] ++ vol))
  end.

Definition logp `{NormalDensity} (self : t) (x : tensor R) : result (tensor R) :=
  vol <- get_volatility self x ;;
  d <- Normal.dist (Scalar 0) (Some vol) None ;;
  like <- Normal.logp d x ;;
  Ok (tt.sum like).

End GARCH11.

(** ** EulerMaruyama *)

Module EulerMaruyama.

Record t : Type := {
  dt : tensor R;
  sde_fn : tensor R -> list (tensor R) -> result (tensor R * tensor R);
  sde_pars : list (tensor R)
}.

Definition logp `{NormalDensity} (self : t) (x : tensor R) : result (tensor R) :=
  xt <- getslice x None (Some (-1)%Z) ;;
  x_im1 <- getslice x None (Some (-1)%Z) ;;
  ' (f, g) <- sde_fn self x_im1 (sde_pars self) ;;
  dt_f <- tt.mul (dt self) f ;;
  mu <- tt.add2 xt dt_f ;;
  sd <- tt.mul (tt.sqrt (dt self)) g ;;
  d <- Normal.dist mu (Some sd) None ;;
  x_i <- getslice x (Some 1%Z) None ;;
  like <- Normal.logp d x_i ;;
  Ok (tt.sum like).

End EulerMaruyama.

(** ** MvGaussianRandomWalk and MvStudentTRandomWalk

    A path is a 2-d array, kept as the vector of its rows; all rows of an
    array have one width.  [x[0]] is then a single row, a 0-d tensor of rows.
    The innovation distributions come from [multivariate] and the summed
    score [logp_sum] from the base class, neither of which is in this file:
    they are the parameters [MvNormal_dist], [MvStudentT_dist] and the field
    [logp_sum]. *)

Module multivariate.

Record Continuous : Type := { logp_sum : tensor (list R) -> result (tensor R) }.

(** The arguments [(mu, cov, tau, chol, lower)] kept by the walk. *)
Record innovArgs : Type := {
  mu : tensor R;
  cov : option (tensor (list R));
  tau : option (tensor (list R));
  chol : option (tensor (list R));
  lower : bool
}.

Class Densities : Type := {
  MvNormal_dist : innovArgs -> Continuous;
  MvStudentT_dist : tensor R -> innovArgs -> Continuous
}.

End multivariate.

(** Elementwise difference and sum of two rows of one width. *)
Definition row_sub (a b : list R) : list R :=
  map (fun p => fst p - snd p) (combine a b).

Definition row_add (a b : list R) : list R :=
  map (fun p => fst p + snd p) (combine a b).

Module MvGaussianRandomWalk.

Record t : Type := {
  init : multivariate.Continuous;
  innovArgs : multivariate.innovArgs;
  innov : multivariate.Continuous
}.

Definition __init__ `{multivariate.Densities} (mu : tensor R)
    (cov tau chol : option (tensor (list R))) (lower : bool)
    (init : multivariate.Continuous) : t :=
  let innovArgs := {| multivariate.mu := mu; multivariate.cov := cov;
                      multivariate.tau := tau; multivariate.chol := chol;
                      multivariate.lower := lower |} in
  {| init := init; innovArgs := innovArgs;
     innov := multivariate.MvNormal_dist innovArgs |}.

Definition logp (self : t) (x : tensor (list R)) : result (tensor R) :=
  x_im1 <- getslice x None (Some (-1)%Z) ;;
  x_i <- getslice x (Some 1%Z) None ;;
  x_0 <- getitem x 0 ;;
  init_like <- multivariate.logp_sum (init self) x_0 ;;
  increments <- elemwise row_sub x_i x_im1 ;;
  innov_like <- multivariate.logp_sum (innov self) increments ;;
  tt.add2 init_like innov_like.

End MvGaussianRandomWalk.

Module MvStudentTRandomWalk.

(** The subclass keeps the parent's fields and [logp], and replaces the
    innovation distribution. *)
Definition __init__ `{multivariate.Densities} (nu : tensor R) (mu : tensor R)
    (cov tau chol : option (tensor (list R))) (lower : bool)
    (init : multivariate.Continuous) : MvGaussianRandomWalk.t :=
  let super := MvGaussianRandomWalk.__init__ mu cov tau chol lower init in
  {| MvGaussianRandomWalk.init := MvGaussianRandomWalk.init super;
     MvGaussianRandomWalk.innovArgs := MvGaussianRandomWalk.innovArgs super;
     MvGaussianRandomWalk.innov :=
       multivariate.MvStudentT_dist nu (MvGaussianRandomWalk.innovArgs super) |}.

Definition logp : MvGaussianRandomWalk.t -> tensor (list R) -> result (tensor R) :=
  MvGaussianRandomWalk.logp.

End MvStudentTRandomWalk.

(** ** A concrete Normal density

    The Gaussian log-density in its precision form, an instance of
    [NormalDensity] on which the general statements can be evaluated. *)
Definition gaussian : NormalDensity :=
  fun mu tau sigma value => (- tau * (value - mu) ^ 2 + ln (tau / PI / 2)) / 2.

(** ** The two parameterisations of the Normal density

    [Normal.dist(mu, tau=tau).logp(v)] and [Normal.dist(mu, sigma=sigma).logp(v)]
    at scalars, after the scale has been made canonical by [get_tau_sigma]. *)
Definition normal_tau `{NormalDensity} (mu tau value : R) : R :=
  logpdf mu tau (/ sqrt tau) value.

Definition normal_sigma `{NormalDensity} (mu sigma value : R) : R :=
  logpdf mu (/ (sigma ^ 2)) sigma value.

(** ** The instances the properties compare

    An Euler-Maruyama scheme with unit time step whose [sde_fn] returns the
    constant drift 0 and diffusion 1, and the Gaussian random walk with
    [mu=0], [sigma=1] and every other argument left at its default. *)
Definition constant_sde (x : tensor R) (pars : list (tensor R))
  : result (tensor R * tensor R) :=
  Ok (Scalar 0, Scalar 1).

Definition unit_EulerMaruyama : EulerMaruyama.t :=
  {| EulerMaruyama.dt := Scalar 1;
     EulerMaruyama.sde_fn := constant_sde;
     EulerMaruyama.sde_pars := [] |}.

Definition standard_walk (shape : option (list nat)) : result GaussianRandomWalk.t :=
  GaussianRandomWalk.__init__ None None (Some (Scalar 1)) (Some (Scalar 0)) None shape.

(** The documented requirement on a vector-valued [mu] or [sigma] of the
    random walk: its first dimension matches the length [n] of the walk.  A
    scalar is aligned with every walk. *)
Definition aligned (n : nat) (t : tensor R) : bool :=
  match t with
  | Scalar _ => true
  | Vector l => Nat.eqb (length l) n
  end.

(** Whether a keyword argument was passed. *)
Definition given {A : Type} (arg : option A) : bool :=
  match arg with
  | Some _ => true
  | None => false
  end.

(** The number of elements of an array of the given shape. *)
Definition total_length (shape : list nat) : nat := fold_right Nat.mul 1%nat shape.

(** The value a parameter takes at position [i]: a scalar is broadcast, a
    vector is read at [i]. *)
Definition entry (t : tensor R) (i : nat) : R :=
  match t with
  | Scalar a => a
  | Vector l => nth i l 0
  end.

(** An [sde_fn] with a state-dependent drift: [f = theta * x] and a constant
    diffusion [g = s], one value per state, for parameters [(theta, s)]. *)
Definition linear_sde (x : tensor R) (pars : list (tensor R))
  : result (tensor R * tensor R) :=
  match pars with
  | [theta; s] =>
      f <- tt.mul theta x ;;
      g <- tt.add2 (tt.zeros_like x) s ;;
      Ok (f, g)
  | _ => Raise TypeError
  end.

(** The one-step prediction of AR at residual position [t], that is for the
    element [x[p + t]]: the coefficients [rho[off], rho[off + 1], ...] applied
    to the lags [x[p + t - 1], x[p + t - 2], ...], added from the first lag
    on.  [off] is 1 when [rho[0]] is the constant term, otherwise 0. *)
Definition AR_prediction (rho x : list R) (off p t : nat) : R :=
  fold_left (fun acc i => acc + nth (i + off) rho 0 * nth (p - (i + 1) + t) x 0)
            (seq 1 (p - 1))
            (nth off rho 0 * nth (p - 1 + t) x 0).

(** Concrete multivariate distributions on which the statements about the
    multivariate walks can be evaluated: a flat initial distribution, whose
    summed score is 0, and independent standard Gaussian innovations. *)
Definition flat_rows : multivariate.Continuous :=
  {| multivariate.logp_sum := fun _ => Ok (Scalar 0) |}.

Definition gaussian_rows : multivariate.Continuous :=
  {| multivariate.logp_sum := fun x =>
       Ok (Scalar (match x with
                   | Scalar row => sumR (map (gaussian 0 1 1) row)
                   | Vector rows =>
                       sumR (map (fun row => sumR (map (gaussian 0 1 1) row)) rows)
                   end)) |}.

(** An [sde_fn] with the constant drift [a] and diffusion [b]. *)
Definition constant_coefficients (a b : R) (x : tensor R) (pars : list (tensor R))
  : result (tensor R * tensor R) :=
  Ok (Scalar a, Scalar b).

(** The distribution [Normal.dist(0., tau=tau_e)], the boundary of AR1. *)
Definition boundary `{NormalDensity} (tau_e : R) : distribution.Continuous :=
  {| distribution.logp_graph := fun value =>
       value <- distribution.force value ;;
       d <- Normal.dist (Scalar 0) None (Some (Scalar tau_e)) ;;
       Normal.logp d value |}.

(** * Properties *)

(** ** Slices and indexing *)

Lemma slice_init (A : Type) (l : list A) :
  slice None (Some (-1)%Z) l = removelast l.
Proof.
  unfold slice, clamp.
  change (-1 <? 0)%Z with true; cbv iota.
  rewrite removelast_firstn_len.
  change (skipn (Z.to_nat 0) l) with l.
  f_equal; lia.
Qed.

Lemma slice_tail (A : Type) (l : list A) :
  slice (Some 1%Z) None l = tl l.
Proof.
  destruct l as [|a r]; [reflexivity|].
  unfold slice, clamp.
  replace (1 <? 0)%Z with false by reflexivity.
  replace (Z.to_nat (Z.min 1 (Z.of_nat (length (a :: r))))) with 1%nat
    by (simpl length; lia).
  replace (Z.to_nat _) with (length r) by (simpl length; lia).
  simpl. apply firstn_all.
Qed.

Lemma length_removelast_pred (A : Type) (l : list A) :
  length (removelast l) = Nat.pred (length l).
Proof.
  rewrite removelast_firstn_len, length_firstn. lia.
Qed.

Lemma nth_removelast (A : Type) (l : list A) (i : nat) (d : A) :
  (i < Nat.pred (length l))%nat -> nth i (removelast l) d = nth i l d.
Proof.
  intros Hi. rewrite removelast_firstn_len, nth_firstn.
  destruct (Nat.ltb_spec i (Nat.pred (length l))); [reflexivity | lia].
Qed.

Lemma removelast_agree (A : Type) (d : A) (x x' : list A) :
  length x = length x' ->
  (forall i, (i < Nat.pred (length x))%nat -> nth i x d = nth i x' d) ->
  removelast x = removelast x'.
Proof.
  intros Hlen Hnth.
  apply (nth_ext _ _ d d).
  - rewrite !length_removelast_pred. congruence.
  - intros n Hn. rewrite length_removelast_pred in Hn.
    rewrite !nth_removelast by congruence. auto.
Qed.

Lemma getitem_head (A : Type) (a : A) (l : list A) :
  getitem (Vector (a :: l)) 0 = Ok (Scalar a).
Proof.
  unfold getitem.
  replace (0 <? 0)%Z with false by reflexivity.
  replace ((0 <? 0)%Z || (Z.of_nat (length (a :: l)) <=? 0)%Z) with false.
  - reflexivity.
  - symmetry. apply orb_false_intro; [reflexivity|].
    apply Z.leb_gt. simpl length. lia.
Qed.

Lemma getitem_deferred_head (A : Type) (a : A) (l : list A) :
  getitem_deferred (Vector (a :: l)) 0 = Ok (Scalar (Ok a)).
Proof. unfold getitem_deferred. now rewrite getitem_head. Qed.

(** ** The scan of GARCH11 *)

Section Scan.

Context {A B : Type} (fn : A -> B -> B).

Lemma length_scan (xs : list A) (v : B) : length (scan_outputs fn xs v) = length xs.
Proof.
  revert v; induction xs as [|a r IH]; intros v; simpl; [reflexivity|].
  now rewrite IH.
Qed.

(** Each output is the step function applied to the matching input and to the
    output before it. *)
Lemma nth_scan (da : A) (db : B) (xs : list A) (v : B) (t : nat) :
  (t < length xs)%nat ->
  nth (S t) (v :: scan_outputs fn xs v) db
  = fn (nth t xs da) (nth t (v :: scan_outputs fn xs v) db).
Proof.
  revert v t; induction xs as [|a r IH]; intros v t Ht; simpl in Ht; [lia|].
  destruct t as [|t]; [reflexivity|].
  change (nth (S t) (fn a v :: scan_outputs fn r (fn a v)) db
          = fn (nth t r da) (nth t (fn a v :: scan_outputs fn r (fn a v)) db)).
  apply IH. lia.
Qed.

(** The scan is the accumulator loop: a left fold that carries the previous
    output and appends each new one. *)
Lemma scan_fold_left (xs : list A) (v : B) (out : list B) :
  snd (fold_left (fun acc a => let w := fn a (fst acc) in (w, snd acc ++ [w])) xs (v, out))
  = out ++ scan_outputs fn xs v.
Proof.
  revert v out; induction xs as [|a r IH]; intros v out; simpl.
  - now rewrite app_nil_r.
  - rewrite IH. now rewrite <- app_assoc.
Qed.

(** A scan over at least one element succeeds; over none it raises. *)
Lemma scan_steps (xs : list A) (v : B) :
  (1 <= length xs)%nat -> scan fn xs v = Ok (scan_outputs fn xs v).
Proof. destruct xs; simpl; [lia | reflexivity]. Qed.

Lemma scan_no_step (xs : list A) (v : B) :
  length xs = 0%nat -> scan fn xs v = Raise NotImplementedError.
Proof. destruct xs; simpl; [reflexivity | discriminate]. Qed.

End Scan.

(** ** GARCH11.get_volatility *)

Lemma get_volatility_scan (self : GARCH11.t) (x : list R) :
  GARCH11.get_volatility self (Vector x)
  = (vol <- scan (fun a vol =>
                    GARCH11.volatility_update a vol (GARCH11.omega self)
                      (GARCH11.alpha_1 self) (GARCH11.beta_1 self))
                 (removelast x) (GARCH11.initial_vol self) ;;
     Ok (Vector (GARCH11.initial_vol self :: vol))).
Proof.
  unfold GARCH11.get_volatility, getslice.
  now rewrite slice_init.
Qed.

(** On two observations or more the scan runs and the volatilities are the
    initial one followed by its outputs. *)
Lemma get_volatility_outputs (self : GARCH11.t) (x : list R) :
  (2 <= length x)%nat ->
  GARCH11.get_volatility self (Vector x)
  = Ok (Vector (GARCH11.initial_vol self
                :: scan_outputs (fun a vol =>
                                   GARCH11.volatility_update a vol (GARCH11.omega self)
                                     (GARCH11.alpha_1 self) (GARCH11.beta_1 self))
                                (removelast x) (GARCH11.initial_vol self))).
Proof.
  intros Hx. rewrite get_volatility_scan, scan_steps; [reflexivity|].
  rewrite length_removelast_pred. lia.
Qed.

(** On fewer than two observations the scan has no step to run. *)
Lemma get_volatility_short (self : GARCH11.t) (x : list R) :
  (length x <= 1)%nat ->
  GARCH11.get_volatility self (Vector x) = Raise NotImplementedError.
Proof.
  intros Hx. rewrite get_volatility_scan, scan_no_step; [reflexivity|].
  rewrite length_removelast_pred. lia.
Qed.

Lemma scan_constant (xs : list R) (v : R) :
  scan_outputs (fun a vol => GARCH11.volatility_update a vol 1 0 0) xs v
  = repeat 1 (length xs).
Proof.
  revert v; induction xs as [|a r IH]; intros v; simpl; [reflexivity|].
  assert (E : GARCH11.volatility_update a v 1 0 0 = 1).
  { unfold GARCH11.volatility_update.
    replace (1 + 0 * Rsqr a + 0 * Rsqr v) with 1 by ring.
    apply sqrt_1. }
  now rewrite E, IH.
Qed.

(** C2, as the code has it. For every GARCH11 instance and every sequence
    [x] of length at least 2, [get_volatility x] returns a sequence [vol] that
    starts with [initial_vol] and satisfies, at every later position [t],
    [vol[t] = sqrt (omega + alpha_1 * x[t-1]^2 + beta_1 * vol[t-1]^2)]; it is
    the output of the left-to-right accumulator loop over [x] without its
    last element; and with [omega = 1], [alpha_1 = 0], [beta_1 = 0],
    [initial_vol = 1] it is constantly [initial_vol]. *)
Theorem get_volatility_recurrence (self : GARCH11.t) (x : list R) :
  (2 <= length x)%nat ->
  exists vol : list R,
    GARCH11.get_volatility self (Vector x) = Ok (Vector vol) /\
    length vol = length x /\
    nth 0 vol 0 = GARCH11.initial_vol self /\
    (forall t : nat, (1 <= t < length vol)%nat ->
       nth t vol 0
       = sqrt (GARCH11.omega self
               + GARCH11.alpha_1 self * nth (t - 1) x 0 ^ 2
               + GARCH11.beta_1 self * nth (t - 1) vol 0 ^ 2)) /\
    vol = GARCH11.initial_vol self
          :: snd (fold_left
                    (fun acc a =>
                       let w := sqrt (GARCH11.omega self
                                      + GARCH11.alpha_1 self * Rsqr a
                                      + GARCH11.beta_1 self * Rsqr (fst acc)) in
                       (w, snd acc ++ [w]))
                    (removelast x) (GARCH11.initial_vol self, [])) /\
    (GARCH11.omega self = 1 -> GARCH11.alpha_1 self = 0 ->
     GARCH11.beta_1 self = 0 -> GARCH11.initial_vol self = 1 ->
     vol = repeat (GARCH11.initial_vol self) (length vol)).
Proof.
  intros Hx.
  set (step := fun a vol : R =>
                 GARCH11.volatility_update a vol (GARCH11.omega self)
                   (GARCH11.alpha_1 self) (GARCH11.beta_1 self)).
  exists (GARCH11.initial_vol self
          :: scan_outputs step (removelast x) (GARCH11.initial_vol self)).
  assert (Hlen : length (GARCH11.initial_vol self
                         :: scan_outputs step (removelast x) (GARCH11.initial_vol self))
                 = length x).
  { simpl length. rewrite length_scan, length_removelast_pred. lia. }
  split; [now apply get_volatility_outputs|].
  split; [exact Hlen|].
  split; [reflexivity|].
  split; [|split].
  - intros t [Ht1 Ht2]. rewrite Hlen in Ht2.
    destruct t as [|t]; [lia|].
    replace (S t - 1)%nat with t by lia.
    assert (Ht : (t < Nat.pred (length x))%nat) by lia.
    rewrite (nth_scan step 0 0) by (rewrite length_removelast_pred; exact Ht).
    rewrite nth_removelast by exact Ht.
    unfold step, GARCH11.volatility_update.
    now rewrite !Rsqr_pow2.
  - f_equal. symmetry. apply (scan_fold_left step).
  - intros Hw Ha Hb Hv. subst step. rewrite Hw, Ha, Hb, Hv.
    rewrite scan_constant. simpl length. rewrite repeat_length. reflexivity.
Qed.

Lemma get_volatility_recurrence_witness :
  exists vol : list R,
    GARCH11.get_volatility
      {| GARCH11.omega := 1; GARCH11.alpha_1 := 0;
         GARCH11.beta_1 := 0; GARCH11.initial_vol := 1 |} (Vector [3; 4; 5])
    = Ok (Vector vol) /\ vol = [1; 1; 1].
Proof.
  destruct (get_volatility_recurrence
              {| GARCH11.omega := 1; GARCH11.alpha_1 := 0;
                 GARCH11.beta_1 := 0; GARCH11.initial_vol := 1 |} [3; 4; 5]
              ltac:(simpl; lia))
    as (vol & Hvol & Hlen & _ & _ & _ & Hconst).
  exists vol. split; [exact Hvol|].
  rewrite (Hconst eq_refl eq_refl eq_refl eq_refl), Hlen. reflexivity.
Defined.

(** C2 as stated fails on the sequences of length 1 and 0: [x[:-1]] is then
    empty, the scan has no step to run and raises, so no volatility sequence
    is returned, also for the instance with [omega = 1], [alpha_1 = 0],
    [beta_1 = 0], [initial_vol = 1]. *)
Lemma get_volatility_raises_on_single_observation :
  let self := {| GARCH11.omega := 1; GARCH11.alpha_1 := 0;
                 GARCH11.beta_1 := 0; GARCH11.initial_vol := 1 |} in
  GARCH11.get_volatility self (Vector [5]) = Raise NotImplementedError /\
  GARCH11.get_volatility self (Vector []) = Raise NotImplementedError /\
  ~ (exists vol : list R, GARCH11.get_volatility self (Vector [5]) = Ok (Vector vol)).
Proof.
  intros self.
  assert (E : GARCH11.get_volatility self (Vector [5]) = Raise NotImplementedError)
    by reflexivity.
  split; [exact E|]. split; [reflexivity|].
  intros [vol Hvol]. rewrite E in Hvol. discriminate.
Qed.

(** C9. Two sequences of the same length that agree everywhere but at their
    final position have the same volatility sequence: [get_volatility] never
    reads the last observation. *)
Theorem get_volatility_ignores_last (self : GARCH11.t) (x x' : list R) :
  (1 <= length x)%nat ->
  length x = length x' ->
  (forall i : nat, (i < length x - 1)%nat -> nth i x 0 = nth i x' 0) ->
  GARCH11.get_volatility self (Vector x) = GARCH11.get_volatility self (Vector x').
Proof.
  intros _ Hlen Hnth.
  rewrite !get_volatility_scan.
  rewrite (removelast_agree _ 0 x x' Hlen); [reflexivity|].
  intros i Hi. apply Hnth. lia.
Qed.

Lemma get_volatility_ignores_last_witness :
  let self := {| GARCH11.omega := 1; GARCH11.alpha_1 := / 2;
                 GARCH11.beta_1 := / 4; GARCH11.initial_vol := 1 |} in
  GARCH11.get_volatility self (Vector [1; 2; 5])
  = GARCH11.get_volatility self (Vector [1; 2; 7]).
Proof.
  intros self. apply get_volatility_ignores_last.
  - simpl; lia.
  - reflexivity.
  - intros [|[|i]] Hi; simpl in *; try reflexivity; lia.
Defined.

(** ** Elementwise operations on concrete shapes *)

Lemma length_tl_removelast (A : Type) (l : list A) :
  length (removelast l) = length (tl l).
Proof.
  rewrite length_removelast_pred. now destruct l.
Qed.

Lemma elemwise_scalar_vector (f : R -> R -> R) (a : R) (l : list R) :
  elemwise f (Scalar a) (Vector l) = Ok (Vector (map (f a) l)).
Proof.
  unfold elemwise; simpl. now rewrite map_map.
Qed.

Lemma elemwise_vector_scalar (f : R -> R -> R) (l : list R) (b : R) :
  elemwise f (Vector l) (Scalar b) = Ok (Vector (map (fun a => f a b) l)).
Proof.
  unfold elemwise; simpl. now rewrite map_map.
Qed.

Lemma elemwise_vector_vector (f : R -> R -> R) (l1 l2 : list R) :
  length l1 = length l2 ->
  elemwise f (Vector l1) (Vector l2)
  = Ok (Vector (map (fun p => f (fst p) (snd p)) (combine l1 l2))).
Proof.
  intros E. unfold elemwise; simpl.
  now rewrite E, Nat.eqb_refl.
Qed.

Section NormalLogp.

Context `{NormalDensity}.

Lemma Normal_logp_scalar (m t s v : R) :
  Normal.logp {| Normal.mu := Scalar m; Normal.tau := Scalar t; Normal.sigma := Scalar s |}
    (Scalar v)
  = Ok (Scalar (logpdf m t s v)).
Proof. reflexivity. Qed.

(** A vector of means and a vector of values of the same length, under one
    scalar scale: the density of each value under the mean at its position. *)
Lemma Normal_logp_vector (m v : list R) (t s : R) :
  length m = length v ->
  Normal.logp {| Normal.mu := Vector m; Normal.tau := Scalar t; Normal.sigma := Scalar s |}
    (Vector v)
  = Ok (Vector (map (fun p => logpdf (fst p) t s (snd p)) (combine m v))).
Proof.
  intros E. unfold Normal.logp; simpl.
  rewrite <- E, Nat.eqb_refl. simpl.
  f_equal. f_equal. rewrite map_map.
  revert v E; induction m as [|a m IH]; intros [|b v] E; simpl in *;
    try reflexivity; try discriminate.
  f_equal. apply IH. now injection E.
Qed.

End NormalLogp.

(** Consecutive pairs of a sequence, by position. *)
Lemma adjacent_pairs (B : Type) (F : R -> R -> B) (x0 : R) (rest : list R) :
  map (fun p => F (fst p) (snd p)) (combine (removelast (x0 :: rest)) rest)
  = map (fun i => F (nth (i - 1) (x0 :: rest) 0) (nth i (x0 :: rest) 0))
        (seq 1 (length rest)).
Proof.
  revert x0; induction rest as [|x1 r IH]; intros x0; [reflexivity|].
  change (removelast (x0 :: x1 :: r)) with (x0 :: removelast (x1 :: r)).
  change (combine (x0 :: removelast (x1 :: r)) (x1 :: r))
    with ((x0, x1) :: combine (removelast (x1 :: r)) r).
  change (seq 1 (length (x1 :: r))) with (1%nat :: seq 2 (length r)).
  rewrite !map_cons. apply (f_equal2 cons); [reflexivity|].
  rewrite IH, <- (seq_shift (length r) 1), map_map.
  apply map_ext_in. intros i Hi. apply in_seq in Hi.
  destruct i as [|i]; [lia|].
  replace (S (S i) - 1)%nat with (S i) by lia.
  replace (S i - 1)%nat with i by lia.
  reflexivity.
Qed.

Lemma combine_map_l (A B C : Type) (f : A -> B) (l : list A) (l' : list C) :
  combine (map f l) l' = map (fun p => (f (fst p), snd p)) (combine l l').
Proof.
  revert l'; induction l as [|a l IH]; intros [|c l']; simpl; try reflexivity.
  now rewrite IH.
Qed.

Lemma getslice_init (A : Type) (l : list A) :
  getslice (Vector l) None (Some (-1)%Z) = Ok (Vector (removelast l)).
Proof. unfold getslice. now rewrite slice_init. Qed.

Lemma getslice_tail (A : Type) (l : list A) :
  getslice (Vector l) (Some 1%Z) None = Ok (Vector (tl l)).
Proof. unfold getslice. now rewrite slice_tail. Qed.

Lemma bind_Ok (A B : Type) (a : A) (k : A -> result B) : bind (Ok a) k = k a.
Proof. reflexivity. Qed.

Lemma Normal_dist_tau (m : tensor R) (t : R) :
  Normal.dist m None (Some (Scalar t))
  = Ok {| Normal.mu := m; Normal.tau := Scalar t; Normal.sigma := Scalar (/ sqrt t) |}.
Proof. reflexivity. Qed.

Lemma Normal_dist_sigma (m : tensor R) (s : R) :
  Normal.dist m (Some (Scalar s)) None
  = Ok {| Normal.mu := m; Normal.tau := Scalar (/ (s ^ 2)); Normal.sigma := Scalar s |}.
Proof. reflexivity. Qed.

(** ** AR1 *)

Section AR1_properties.

Context `{NormalDensity}.

Lemma AR1_logp_pairs (self : AR1.t) (k tau_e x0 : R) (rest : list R) :
  AR1.k self = Scalar k -> AR1.tau_e self = Scalar tau_e ->
  AR1.logp self (Vector (x0 :: rest))
  = Ok (Scalar (normal_tau 0 tau_e x0
                + sumR (map (fun i => normal_tau (k * nth (i - 1) (x0 :: rest) 0) tau_e
                                        (nth i (x0 :: rest) 0))
                            (seq 1 (length rest))))).
Proof.
  intros Hk Ht. unfold AR1.logp. rewrite Hk, Ht.
  rewrite getslice_init, getslice_tail, getitem_head, !Normal_dist_tau, !bind_Ok.
  unfold tt.mul. rewrite elemwise_scalar_vector, bind_Ok, Normal_dist_tau, bind_Ok.
  rewrite Normal_logp_vector
    by (rewrite length_map; apply (length_tl_removelast _ (x0 :: rest))).
  rewrite !bind_Ok, Normal_logp_scalar, bind_Ok.
  change (tl (x0 :: rest)) with rest.
  rewrite combine_map_l, map_map.
  cbn [fst snd].
  rewrite (adjacent_pairs R (fun a b => logpdf (k * a) tau_e (/ sqrt tau_e) b)).
  reflexivity.
Qed.

End AR1_properties.

Lemma map_nth_tail (B : Type) (g : R -> B) (x0 : R) (rest : list R) :
  map (fun i => g (nth i (x0 :: rest) 0)) (seq 1 (length rest)) = map g rest.
Proof.
  revert x0; induction rest as [|x1 r IH]; intros x0; [reflexivity|].
  change (seq 1 (length (x1 :: r))) with (1%nat :: seq 2 (length r)).
  rewrite !map_cons. apply (f_equal2 cons); [reflexivity|].
  rewrite <- (IH x1), <- (seq_shift (length r) 1), map_map.
  reflexivity.
Qed.

(** C1. For a sequence [x] of length at least 1, [AR1.logp x] is the Normal
    log-density of [x[0]] under mean 0 and precision [tau_e] plus the sum, over
    the positions [i >= 1], of the Normal log-density of [x[i]] under mean
    [k * x[i-1]] and precision [tau_e]; with [k = 0] it is the sum of the
    Normal(0, tau_e) log-densities of all elements of [x]. *)
Theorem AR1_logp_sum `{NormalDensity} (k tau_e : R) (x : list R) :
  (1 <= length x)%nat ->
  (self <- AR1.__init__ (Scalar k) (Scalar tau_e) ;; AR1.logp self (Vector x))
  = Ok (Scalar (normal_tau 0 tau_e (nth 0 x 0)
                + sumR (map (fun i => normal_tau (k * nth (i - 1) x 0) tau_e (nth i x 0))
                            (seq 1 (length x - 1)))))
  /\ (k = 0 ->
      (self <- AR1.__init__ (Scalar k) (Scalar tau_e) ;; AR1.logp self (Vector x))
      = Ok (Scalar (sumR (map (normal_tau 0 tau_e) x)))).
Proof.
  intros Hx. destruct x as [|x0 rest]; [simpl in Hx; lia|].
  assert (E : AR1.__init__ (Scalar k) (Scalar tau_e)
              = Ok {| AR1.k := Scalar k; AR1.tau_e := Scalar tau_e;
                      AR1.tau := Scalar (tau_e * (1 - k ^ 2)) |}) by reflexivity.
  rewrite E, bind_Ok.
  rewrite (AR1_logp_pairs _ k tau_e) by reflexivity.
  replace (length (x0 :: rest) - 1)%nat with (length rest) by (simpl; lia).
  split; [reflexivity|].
  intros ->. do 2 f_equal.
  change (sumR (map (normal_tau 0 tau_e) (x0 :: rest)))
    with (normal_tau 0 tau_e x0 + sumR (map (normal_tau 0 tau_e) rest)).
  f_equal. f_equal.
  rewrite <- (map_nth_tail R (normal_tau 0 tau_e) x0 rest).
  apply map_ext. intros i. now rewrite Rmult_0_l.
Qed.

Lemma AR1_logp_sum_witness :
  (self <- AR1.__init__ (Scalar 0) (Scalar 1) ;; @AR1.logp gaussian self (Vector [1; 2]))
  = Ok (Scalar (sumR (map (@normal_tau gaussian 0 1) [1; 2]))).
Proof.
  apply (@AR1_logp_sum gaussian 0 1 [1; 2]).
  - simpl; lia.
  - reflexivity.
Defined.

(** ** GaussianRandomWalk *)

Section Walk_properties.

Context `{NormalDensity}.

(** With scalar drift and scale, a walk over a non-empty sequence scores each
    element after the first under the Normal centred at its predecessor plus
    the drift, and adds the score of the first element under [init]. *)
Lemma walk_logp_scalar (self : GaussianRandomWalk.t) (m s x0 : R) (rest : list R) :
  GaussianRandomWalk.mu self = Scalar m ->
  GaussianRandomWalk.sigma self = Scalar s ->
  GaussianRandomWalk.logp self (Vector (x0 :: rest))
  = (init_like <- distribution.logp (GaussianRandomWalk.init self) (Scalar x0) ;;
     tt.add2 init_like
       (Scalar (sumR (map (fun i => normal_sigma (nth (i - 1) (x0 :: rest) 0 + m) s
                                      (nth i (x0 :: rest) 0))
                          (seq 1 (length rest)))))).
Proof.
  intros Hm Hs. unfold GaussianRandomWalk.logp.
  change (Nat.ltb 0 (ndim (Vector (x0 :: rest)))) with true. cbv iota.
  rewrite getslice_init, getslice_tail, getitem_deferred_head, !bind_Ok.
  change (distribution.logp_graph (GaussianRandomWalk.init self) (Scalar (Ok x0)))
    with (distribution.logp (GaussianRandomWalk.init self) (Scalar x0)).
  rewrite Hm, Hs.
  change (GaussianRandomWalk._mu_and_sigma (Scalar m) (Scalar s))
    with (Ok (Scalar m, Scalar s)).
  rewrite bind_Ok.
  unfold tt.add2 at 1. rewrite elemwise_vector_scalar, bind_Ok.
  rewrite Normal_dist_sigma, bind_Ok.
  rewrite Normal_logp_vector
    by (rewrite length_map; apply (length_tl_removelast _ (x0 :: rest))).
  rewrite !bind_Ok.
  change (tl (x0 :: rest)) with rest.
  rewrite combine_map_l, map_map. cbn [fst snd].
  rewrite (adjacent_pairs R (fun a b => logpdf (a + m) (/ (s ^ 2)) s b)).
  reflexivity.
Qed.

Lemma standard_walk_fields (shape : option (list nat)) (self : GaussianRandomWalk.t) :
  standard_walk shape = Ok self ->
  GaussianRandomWalk.mu self = Scalar 0 /\
  GaussianRandomWalk.sigma self = Scalar 1 /\
  GaussianRandomWalk.init self = Flat.dist.
Proof.
  unfold standard_walk, GaussianRandomWalk.__init__.
  destruct (Nat.eqb (list_sum (default [1%nat] shape)) 0); [discriminate|].
  simpl. intros E. injection E as <-. now repeat split.
Qed.

(** Euler-Maruyama over a non-empty sequence, for the constant unit scheme. *)
Lemma unit_EulerMaruyama_logp (x0 : R) (rest : list R) :
  EulerMaruyama.logp unit_EulerMaruyama (Vector (x0 :: rest))
  = Ok (Scalar (sumR (map (fun i => normal_sigma (nth (i - 1) (x0 :: rest) 0 + 1 * 0)
                                      (sqrt 1 * 1) (nth i (x0 :: rest) 0))
                          (seq 1 (length rest))))).
Proof.
  unfold EulerMaruyama.logp, unit_EulerMaruyama; cbn [EulerMaruyama.dt
    EulerMaruyama.sde_fn EulerMaruyama.sde_pars].
  rewrite getslice_init, getslice_tail, !bind_Ok.
  unfold constant_sde. rewrite bind_Ok.
  change (tt.mul (Scalar 1) (Scalar 0)) with (Ok (Scalar (1 * 0))).
  rewrite bind_Ok.
  unfold tt.add2. rewrite elemwise_vector_scalar, bind_Ok.
  change (tt.mul (tt.sqrt (Scalar 1)) (Scalar 1)) with (Ok (Scalar (sqrt 1 * 1))).
  rewrite bind_Ok, Normal_dist_sigma, !bind_Ok.
  rewrite Normal_logp_vector
    by (rewrite length_map; apply (length_tl_removelast _ (x0 :: rest))).
  rewrite !bind_Ok.
  change (tl (x0 :: rest)) with rest.
  rewrite combine_map_l, map_map. cbn [fst snd].
  rewrite (adjacent_pairs R (fun a b => logpdf (a + 1 * 0) (/ ((sqrt 1 * 1) ^ 2)) (sqrt 1 * 1) b)).
  reflexivity.
Qed.

End Walk_properties.

(** C3. For every sequence [x], [EulerMaruyama.logp x] with [dt = 1] and an
    [sde_fn] returning the constant pair (0, 1) equals
    [GaussianRandomWalk.logp x] with [mu = 0], [sigma = 1] and the default
    Flat [init]; on the empty sequence both are the empty sum. *)
Theorem EulerMaruyama_is_standard_walk `{NormalDensity}
    (shape : option (list nat)) (walk : GaussianRandomWalk.t) (x : list R) :
  standard_walk shape = Ok walk ->
  EulerMaruyama.logp unit_EulerMaruyama (Vector x)
  = GaussianRandomWalk.logp walk (Vector x).
Proof.
  intros Hwalk.
  destruct (standard_walk_fields shape walk Hwalk) as (Hmu & Hsigma & Hinit).
  destruct x as [|x0 rest].
  - unfold GaussianRandomWalk.logp. rewrite Hmu, Hsigma, Hinit.
    transitivity (Ok (Scalar (0 + 0))); [|reflexivity].
    change (EulerMaruyama.logp unit_EulerMaruyama (Vector [])) with (Ok (Scalar 0)).
    now rewrite Rplus_0_l.
  - rewrite unit_EulerMaruyama_logp.
    rewrite (walk_logp_scalar walk 0 1) by assumption.
    rewrite Hinit.
    change (distribution.logp Flat.dist (Scalar x0)) with (Ok (Scalar 0)).
    rewrite bind_Ok.
    change (tt.add2 (Scalar 0) (Scalar ?s)) with (Ok (Scalar (0 + s))).
    rewrite Rplus_0_l.
    replace (sqrt 1 * 1) with 1 by (rewrite sqrt_1; ring).
    do 3 f_equal. apply map_ext. intros i.
    now replace (1 * 0) with 0 by ring.
Qed.

Lemma EulerMaruyama_is_standard_walk_witness :
  @EulerMaruyama.logp gaussian unit_EulerMaruyama (Vector [1; 3; 2])
  = (walk <- standard_walk (Some [3%nat]) ;;
     @GaussianRandomWalk.logp gaussian walk (Vector [1; 3; 2])) /\
  @EulerMaruyama.logp gaussian unit_EulerMaruyama (Vector [])
  = (walk <- standard_walk None ;;
     @GaussianRandomWalk.logp gaussian walk (Vector [])).
Proof.
  split.
  - change (standard_walk (Some [3%nat]))
      with (Ok {| GaussianRandomWalk.shape := [3%nat];
                  GaussianRandomWalk.tau := Scalar (/ (1 ^ 2));
                  GaussianRandomWalk.sigma := Scalar 1;
                  GaussianRandomWalk.mu := Scalar 0;
                  GaussianRandomWalk.init := Flat.dist |}).
    rewrite bind_Ok.
    apply (@EulerMaruyama_is_standard_walk gaussian (Some [3%nat])).
    reflexivity.
  - change (standard_walk None)
      with (Ok {| GaussianRandomWalk.shape := [1%nat];
                  GaussianRandomWalk.tau := Scalar (/ (1 ^ 2));
                  GaussianRandomWalk.sigma := Scalar 1;
                  GaussianRandomWalk.mu := Scalar 0;
                  GaussianRandomWalk.init := Flat.dist |}).
    rewrite bind_Ok.
    apply (@EulerMaruyama_is_standard_walk gaussian None).
    reflexivity.
Defined.

Section Walk_increments.

Context `{NormalDensity}.

(** The Normal density is a location family: the density of [v] under mean
    [mu] is the density of [v - mu] under mean 0. *)
Hypothesis location :
  forall mu tau sigma v : R, logpdf mu tau sigma v = logpdf 0 tau sigma (v - mu).

Lemma standard_walk_increments (shape : option (list nat))
    (walk : GaussianRandomWalk.t) (x : list R) :
  standard_walk shape = Ok walk ->
  (1 <= length x)%nat ->
  GaussianRandomWalk.logp walk (Vector x)
  = Ok (Scalar (sumR (map (fun i => normal_sigma 0 1 (nth i x 0 - nth (i - 1) x 0))
                          (seq 1 (length x - 1))))).
Proof.
  intros Hwalk Hx. destruct x as [|x0 rest]; [simpl in Hx; lia|].
  destruct (standard_walk_fields shape walk Hwalk) as (Hmu & Hsigma & Hinit).
  rewrite (walk_logp_scalar walk 0 1) by assumption.
  rewrite Hinit.
  change (distribution.logp Flat.dist (Scalar x0)) with (Ok (Scalar 0)).
  rewrite bind_Ok.
  change (tt.add2 (Scalar 0) (Scalar ?s)) with (Ok (Scalar (0 + s))).
  rewrite Rplus_0_l.
  replace (length (x0 :: rest) - 1)%nat with (length rest) by (simpl; lia).
  do 3 f_equal. apply map_ext. intros i.
  unfold normal_sigma. rewrite location. f_equal. ring.
Qed.

End Walk_increments.

(** C6. For the Gaussian random walk with scalar [mu = 0], [sigma = 1] and
    the flat [init], for every sequence [x] with at least one element and every
    constant [c], [logp] of [x] shifted by [c] equals [logp x]; and [logp x] is
    the sum of the standard Normal log-densities of the increments
    [x[i] - x[i-1]].  The Normal density enters as a location family. *)
Theorem walk_translation_invariant `{NormalDensity}
    (shape : option (list nat)) (walk : GaussianRandomWalk.t) (x : list R) (c : R) :
  (forall mu tau sigma v : R, logpdf mu tau sigma v = logpdf 0 tau sigma (v - mu)) ->
  standard_walk shape = Ok walk ->
  (1 <= length x)%nat ->
  GaussianRandomWalk.logp walk (Vector (map (fun a => a + c) x))
  = GaussianRandomWalk.logp walk (Vector x)
  /\ GaussianRandomWalk.logp walk (Vector x)
     = Ok (Scalar (sumR (map (fun i => normal_sigma 0 1 (nth i x 0 - nth (i - 1) x 0))
                             (seq 1 (length x - 1))))).
Proof.
  intros Hloc Hwalk Hx.
  split; [|now apply (standard_walk_increments Hloc shape)].
  rewrite !(standard_walk_increments Hloc shape walk) by (rewrite ?length_map; assumption).
  rewrite length_map.
  do 3 f_equal. apply map_ext_in. intros i Hi. apply in_seq in Hi.
  f_equal.
  rewrite (nth_indep _ 0 (0 + c)) by (rewrite length_map; lia).
  rewrite (nth_indep _ 0 (0 + c) (n := (i - 1)%nat)) by (rewrite length_map; lia).
  rewrite !(map_nth (fun a => a + c)). ring.
Qed.

Lemma gaussian_location (mu tau sigma v : R) :
  @logpdf gaussian mu tau sigma v = @logpdf gaussian 0 tau sigma (v - mu).
Proof.
  unfold logpdf, gaussian. f_equal. f_equal. ring.
Qed.

Lemma walk_translation_invariant_witness :
  (walk <- standard_walk None ;;
   @GaussianRandomWalk.logp gaussian walk (Vector (map (fun a => a + 10) [1; 3; 2])))
  = (walk <- standard_walk None ;;
     @GaussianRandomWalk.logp gaussian walk (Vector [1; 3; 2])).
Proof.
  change (standard_walk None)
    with (Ok {| GaussianRandomWalk.shape := [1%nat];
                GaussianRandomWalk.tau := Scalar (/ (1 ^ 2));
                GaussianRandomWalk.sigma := Scalar 1;
                GaussianRandomWalk.mu := Scalar 0;
                GaussianRandomWalk.init := Flat.dist |}).
  rewrite !bind_Ok.
  apply (@walk_translation_invariant gaussian None).
  - exact gaussian_location.
  - reflexivity.
  - simpl; lia.
Defined.

Lemma add2_zero_r (t : tensor R) : tt.add2 t (Scalar 0) = Ok t.
Proof.
  destruct t as [a|l]; unfold tt.add2.
  - unfold elemwise; simpl. now rewrite Rplus_0_r.
  - rewrite elemwise_vector_scalar. do 2 f_equal.
    rewrite <- (map_id l) at 2. apply map_ext. intros a. apply Rplus_0_r.
Qed.

Lemma aligned_one (t : tensor R) :
  aligned 1 t = true -> (exists a, t = Scalar a) \/ (exists a, t = Vector [a]).
Proof.
  destruct t as [a|[|a [|b l]]]; simpl; intros E; try discriminate.
  - left. now exists a.
  - right. now exists a.
Qed.

(** C10. For a one-dimensional sequence of length exactly 1, the random
    walk's [logp] is the score of its single element under [init]: there is
    no innovation to add.  [mu] and [sigma] are scalars or have the length of
    the walk. *)
Theorem walk_logp_singleton `{NormalDensity} (self : GaussianRandomWalk.t) (a : R) :
  aligned 1 (GaussianRandomWalk.mu self) = true ->
  aligned 1 (GaussianRandomWalk.sigma self) = true ->
  GaussianRandomWalk.logp self (Vector [a])
  = distribution.logp (GaussianRandomWalk.init self) (Scalar a).
Proof.
  intros Hmu Hsigma.
  assert (E : forall r : result (tensor R),
             (init_like <- r ;; tt.add2 init_like (Scalar 0)) = r).
  { intros [t|e]; [apply add2_zero_r | reflexivity]. }
  rewrite <- (E (distribution.logp (GaussianRandomWalk.init self) (Scalar a))).
  unfold GaussianRandomWalk.logp.
  destruct (aligned_one _ Hmu) as [[m ->]|[m ->]];
    destruct (aligned_one _ Hsigma) as [[s ->]|[s ->]]; reflexivity.
Qed.

Lemma walk_logp_singleton_witness :
  let self := {| GaussianRandomWalk.shape := [1%nat];
                 GaussianRandomWalk.tau := Scalar (/ (2 ^ 2));
                 GaussianRandomWalk.sigma := Scalar 2;
                 GaussianRandomWalk.mu := Vector [5];
                 GaussianRandomWalk.init := Flat.dist |} in
  @GaussianRandomWalk.logp gaussian self (Vector [7])
  = distribution.logp Flat.dist (Scalar 7).
Proof.
  intros self.
  apply (@walk_logp_singleton gaussian self 7); reflexivity.
Defined.

(** ** AR(p) *)

Lemma AR_init_fields (rs : list R) (sigma tau : option (tensor R)) (constant : bool)
    (init : option distribution.Continuous) (sd : option (tensor R)) (self : AR.t) :
  AR.__init__ (Vector rs) sigma tau constant init sd = Ok self ->
  AR.rho self = Vector rs /\ AR.constant self = constant /\
  AR.init self = default Flat.dist init /\
  AR.p self = (if constant then (Z.of_nat (length rs) - 1)%Z else Z.of_nat (length rs)).
Proof.
  unfold AR.__init__.
  destruct (get_tau_sigma tau _) as [[t s]|e]; [|discriminate].
  rewrite !bind_Ok. intros E. injection E as <-. now repeat split.
Qed.

(** C5. For AR with [constant=False] and [rho=[0.5]] (so [p=1]), at
    [x=[1,2,3]]: the innovation residuals are [[1.5, 2.0]], and [logp] is the
    sum of the Normal(0, tau) log-densities of [[1.5, 2.0]] plus [init.logp]
    applied to [[1]], summed. *)
Theorem AR_lag1_example `{NormalDensity} (sigma tau : option (tensor R))
    (init : option distribution.Continuous) (sd : option (tensor R))
    (self : AR.t) (t : R) :
  AR.__init__ (Vector [0.5]) sigma tau false init sd = Ok self ->
  AR.tau self = Scalar t ->
  AR.p self = 1%Z /\
  AR.eps self (Vector [1; 2; 3]) = Ok (Vector [1.5; 2.0]) /\
  AR.logp self (Vector [1; 2; 3])
  = (init_like <- distribution.logp (AR.init self) (Vector [1]) ;;
     Ok (Scalar (sumR (map (normal_tau 0 t) [1.5; 2.0]) + tt.total init_like))).
Proof.
  intros Hinit Htau.
  destruct (AR_init_fields _ _ _ _ _ _ _ Hinit) as (Hrho & Hconst & _ & Hp).
  simpl in Hp.
  assert (Heps : AR.eps self (Vector [1; 2; 3]) = Ok (Vector [1.5; 2.0])).
  { unfold AR.eps. rewrite Hconst, Hp, Hrho.
    change (1 =? 1)%Z with true. cbv iota.
    rewrite getslice_init, bind_Ok, getslice_tail.
    change (removelast [1; 2; 3]) with [1; 2].
    change (tl [1; 2; 3]) with [2; 3].
    change (tt.mul (Vector [0.5]) (Vector [1; 2])) with (Ok (Vector [0.5 * 1; 0.5 * 2])).
    rewrite !bind_Ok.
    change (tt.sub (Vector [2; 3]) (Vector [0.5 * 1; 0.5 * 2]))
      with (Ok (Vector [2 - 0.5 * 1; 3 - 0.5 * 2])).
    do 2 f_equal.
    replace (2 - 0.5 * 1) with 1.5 by lra.
    replace (3 - 0.5 * 2) with 2.0 by lra.
    reflexivity. }
  split; [exact Hp|]. split; [exact Heps|].
  unfold AR.logp. rewrite Heps, bind_Ok, Htau, Hp, Normal_dist_tau, bind_Ok.
  change (Normal.logp _ (Vector [1.5; 2.0]))
    with (Ok (Vector (map (normal_tau 0 t) [1.5; 2.0]))).
  rewrite bind_Ok.
  change (getslice (Vector [1; 2; 3]) None (Some 1%Z)) with (Ok (Vector [1])).
  rewrite bind_Ok.
  destruct (distribution.logp (AR.init self) (Vector [1])) as [init_like|e];
    reflexivity.
Qed.

Lemma AR_lag1_example_witness :
  (self <- AR.__init__ (Vector [0.5]) None (Some (Scalar 4)) false None None ;;
   @AR.logp gaussian self (Vector [1; 2; 3]))
  = Ok (Scalar (sumR (map (@normal_tau gaussian 0 4) [1.5; 2.0]) + (0 + 0))).
Proof.
  change (AR.__init__ (Vector [0.5]) None (Some (Scalar 4)) false None None)
    with (Ok {| AR.sigma := Scalar (/ sqrt 4); AR.tau := Scalar 4; AR.p := 1;
                AR.constant := false; AR.rho := Vector [0.5];
                AR.init := Flat.dist |}).
  rewrite bind_Ok.
  destruct (@AR_lag1_example gaussian None (Some (Scalar 4)) None None
              {| AR.sigma := Scalar (/ sqrt 4); AR.tau := Scalar 4; AR.p := 1;
                 AR.constant := false; AR.rho := Vector [0.5];
                 AR.init := Flat.dist |} 4 eq_refl eq_refl) as (_ & _ & E).
  exact E.
Defined.

(** ** Construction *)

Lemma get_tau_sigma_conflict (tau sigma : option (tensor R)) :
  given tau = given sigma -> get_tau_sigma tau sigma = Raise ValueError.
Proof.
  destruct tau, sigma; simpl; intros E; try discriminate; reflexivity.
Qed.

Lemma given_alias (sigma sd : option (tensor R)) :
  given (match sd with Some s => Some s | None => sigma end)
  = (given sigma || given sd)%bool.
Proof. now destruct sigma, sd. Qed.

(** C4. AR and GaussianRandomWalk fail at construction with a configuration
    error when the precision [tau] and the standard deviation (passed as
    [sigma] or under its alias [sd]) are given together, and when neither is
    given. *)
Theorem scale_duality_errors :
  (forall rho sigma tau constant init sd,
      given tau = (given sigma || given sd)%bool ->
      exists e, AR.__init__ rho sigma tau constant init sd = Raise e /\
                configuration_error e = true) /\
  (forall tau init sigma mu sd shape,
      given tau = (given sigma || given sd)%bool ->
      exists e, GaussianRandomWalk.__init__ tau init sigma mu sd shape = Raise e /\
                configuration_error e = true).
Proof.
  split.
  - intros rho sigma tau constant init sd E. exists ValueError.
    split; [|reflexivity].
    unfold AR.__init__. rewrite get_tau_sigma_conflict; [reflexivity|].
    now rewrite given_alias.
  - intros tau init sigma mu sd shape E.
    unfold GaussianRandomWalk.__init__.
    destruct (Nat.eqb (list_sum (default [1%nat] shape)) 0).
    + exists TypeError. now split.
    + exists ValueError. split; [|reflexivity].
      rewrite get_tau_sigma_conflict; [reflexivity|].
      now rewrite given_alias.
Qed.

Lemma scale_duality_errors_witness :
  (exists e, AR.__init__ (Vector [0.5]) (Some (Scalar 1)) (Some (Scalar 1)) false None None
             = Raise e /\ configuration_error e = true) /\
  (exists e, AR.__init__ (Vector [0.5]) None None false None None
             = Raise e /\ configuration_error e = true) /\
  (exists e, GaussianRandomWalk.__init__ (Some (Scalar 1)) None (Some (Scalar 1)) None None
               (Some [5%nat])
             = Raise e /\ configuration_error e = true) /\
  (exists e, GaussianRandomWalk.__init__ None None None None None (Some [5%nat])
             = Raise e /\ configuration_error e = true).
Proof.
  destruct scale_duality_errors as [HAR Hwalk].
  repeat split.
  - apply HAR; reflexivity.
  - apply HAR; reflexivity.
  - apply Hwalk; reflexivity.
  - apply Hwalk; reflexivity.
Defined.

Lemma tau_4_is_sigma_half :
  get_tau_sigma (Some (Scalar 4)) None = get_tau_sigma None (Some (Scalar 0.5)).
Proof.
  unfold get_tau_sigma, tmap.
  assert (E : sqrt 4 = 2).
  { replace 4 with (2 * 2) by ring. apply sqrt_square. lra. }
  rewrite E.
  replace (/ (0.5 ^ 2)) with 4 by lra.
  replace (/ 2) with 0.5 by lra.
  reflexivity.
Qed.

(** C7. Constructing AR, or GaussianRandomWalk, with [tau = 4] and
    constructing it with [sigma = 0.5], all other arguments equal, give the
    same [logp] on every input: both scales are made the same canonical
    pair. *)
Theorem precision_stddev_duality `{NormalDensity} :
  (forall rho constant init value,
      (self <- AR.__init__ rho None (Some (Scalar 4)) constant init None ;;
       AR.logp self value)
      = (self <- AR.__init__ rho (Some (Scalar 0.5)) None constant init None ;;
         AR.logp self value)) /\
  (forall init mu shape x,
      (self <- GaussianRandomWalk.__init__ (Some (Scalar 4)) init None mu None shape ;;
       GaussianRandomWalk.logp self x)
      = (self <- GaussianRandomWalk.__init__ None init (Some (Scalar 0.5)) mu None shape ;;
         GaussianRandomWalk.logp self x)).
Proof.
  split.
  - intros rho constant init value.
    unfold AR.__init__. now rewrite tau_4_is_sigma_half.
  - intros init mu shape x.
    unfold GaussianRandomWalk.__init__. now rewrite tau_4_is_sigma_half.
Qed.

(** C8, as the code has it. GaussianRandomWalk construction fails with a
    configuration error for every shape whose dimensions sum to zero (the
    empty shape and the shapes made of zeros only, so every one-dimensional
    shape of length zero), and succeeds only when the dimensions sum to at
    least 1. *)
Theorem walk_shape_check :
  (forall tau init sigma mu sd shape,
      list_sum (default [1%nat] shape) = 0%nat ->
      GaussianRandomWalk.__init__ tau init sigma mu sd shape = Raise TypeError /\
      configuration_error TypeError = true) /\
  (forall tau init sigma mu sd shape self,
      GaussianRandomWalk.__init__ tau init sigma mu sd shape = Ok self ->
      (1 <= list_sum (default [1%nat] shape))%nat) /\
  (forall tau init sigma mu sd n,
      total_length [n] = 0%nat ->
      GaussianRandomWalk.__init__ tau init sigma mu sd (Some [n]) = Raise TypeError).
Proof.
  split; [|split].
  - intros tau init sigma mu sd shape E.
    unfold GaussianRandomWalk.__init__. rewrite E. now split.
  - intros tau init sigma mu sd shape self.
    unfold GaussianRandomWalk.__init__.
    destruct (Nat.eqb_spec (list_sum (default [1%nat] shape)) 0); [discriminate|].
    intros _. lia.
  - intros tau init sigma mu sd n E.
    unfold total_length in E. simpl in E.
    assert (n = 0%nat) as -> by lia. reflexivity.
Qed.

Lemma walk_shape_check_witness :
  GaussianRandomWalk.__init__ None None (Some (Scalar 1)) None None (Some [0%nat; 0%nat])
  = Raise TypeError /\
  (1 <= list_sum (default [1%nat] (Some [7%nat])))%nat /\
  GaussianRandomWalk.__init__ None None (Some (Scalar 1)) None None (Some [0%nat])
  = Raise TypeError.
Proof.
  destruct walk_shape_check as (Hzero & Hok & Hflat).
  split; [|split].
  - apply (Hzero None None (Some (Scalar 1)) None None (Some [0%nat; 0%nat])). reflexivity.
  - apply (Hok None None (Some (Scalar 1)) None None (Some [7%nat])
             {| GaussianRandomWalk.shape := [7%nat];
                GaussianRandomWalk.tau := Scalar (/ (1 ^ 2));
                GaussianRandomWalk.sigma := Scalar 1;
                GaussianRandomWalk.mu := Scalar 0;
                GaussianRandomWalk.init := Flat.dist |}).
    reflexivity.
  - apply Hflat. reflexivity.
Defined.

(** C8 as stated fails: the shape (3, 0) has no element, yet its dimensions
    do not sum to zero and the walk is constructed. *)
Lemma walk_accepts_shape_without_elements :
  total_length [3%nat; 0%nat] = 0%nat /\
  GaussianRandomWalk.__init__ None None (Some (Scalar 1)) None None (Some [3%nat; 0%nat])
  = Ok {| GaussianRandomWalk.shape := [3%nat; 0%nat];
          GaussianRandomWalk.tau := Scalar (/ (1 ^ 2));
          GaussianRandomWalk.sigma := Scalar 1;
          GaussianRandomWalk.mu := Scalar 0;
          GaussianRandomWalk.init := Flat.dist |}.
Proof. split; reflexivity. Qed.

(** The general branches of [AR.eps] on a lag order of 2, with and without
    the constant term. *)
Example AR_eps_two_lags (s t r1 r2 v0 v1 v2 v3 : R) :
  AR.eps {| AR.sigma := Scalar s; AR.tau := Scalar t; AR.p := 2; AR.constant := false;
            AR.rho := Vector [r1; r2]; AR.init := Flat.dist |}
         (Vector [v0; v1; v2; v3])
  = Ok (Vector [v2 - (r1 * v1 + r2 * v0); v3 - (r1 * v2 + r2 * v1)]).
Proof. reflexivity. Qed.

Example AR_eps_two_lags_constant (s t c r1 r2 v0 v1 v2 v3 : R) :
  (self <- AR.__init__ (Vector [c; r1; r2]) (Some (Scalar s)) None true None None ;;
   AR.eps self (Vector [v0; v1; v2; v3]))
  = Ok (Vector [v2 - c - (r1 * v1 + r2 * v0); v3 - c - (r1 * v2 + r2 * v1)]).
Proof. reflexivity. Qed.

Example slice_examples :
  slice (Some 1%Z) (Some (-1)%Z) [10; 20; 30; 40]%Z = [20; 30]%Z /\
  slice (Some 0%Z) (Some (-2)%Z) [10; 20; 30; 40]%Z = [10; 20]%Z /\
  slice None (Some 1%Z) [10; 20; 30]%Z = [10]%Z /\
  slice (Some 5%Z) None [10; 20; 30]%Z = [] /\
  slice (Some (-2)%Z) None [10; 20; 30]%Z = [20; 30]%Z.
Proof. repeat split. Qed.

(** * Further properties of the module *)

(** ** Positions of zipped sequences *)

Lemma map_combine_seq (A B C : Type) (F : A -> B -> C) (da : A) (db : B)
    (a : list A) (b : list B) :
  length a = length b ->
  map (fun p => F (fst p) (snd p)) (combine a b)
  = map (fun t => F (nth t a da) (nth t b db)) (seq 0 (length a)).
Proof.
  revert b; induction a as [|a0 a IH]; intros [|b0 b] E; simpl in E;
    try discriminate; [reflexivity|].
  simpl combine. simpl length.
  change (seq 0 (S (length a))) with (0%nat :: seq 1 (length a)).
  rewrite !map_cons. apply (f_equal2 cons); [reflexivity|].
  rewrite <- seq_shift, map_map. apply IH. now injection E.
Qed.

Lemma scan_firstn (A B : Type) (fn : A -> B -> B) (n : nat) (xs : list A) (v : B) :
  firstn n (scan_outputs fn xs v) = scan_outputs fn (firstn n xs) v.
Proof.
  revert xs v; induction n as [|n IH]; intros [|a r] v; simpl; try reflexivity.
  now rewrite IH.
Qed.

(** Every output of a scan satisfies what each step establishes. *)
Lemma scan_Forall (A B : Type) (fn : A -> B -> B) (P : B -> Prop) (xs : list A) (v : B) :
  (forall a w, P (fn a w)) -> Forall P (scan_outputs fn xs v).
Proof.
  intros Hstep. revert v; induction xs as [|a r IH]; intros v; simpl; constructor.
  - apply Hstep.
  - apply IH.
Qed.

(** ** GARCH11, continued *)

(** A returned volatility sequence is the initial volatility followed by the
    outputs of the scan, and there were at least two observations. *)
Lemma get_volatility_Ok (self : GARCH11.t) (x vol : list R) :
  GARCH11.get_volatility self (Vector x) = Ok (Vector vol) ->
  (2 <= length x)%nat /\
  vol = GARCH11.initial_vol self
        :: scan_outputs (fun a vol =>
                           GARCH11.volatility_update a vol (GARCH11.omega self)
                             (GARCH11.alpha_1 self) (GARCH11.beta_1 self))
                        (removelast x) (GARCH11.initial_vol self).
Proof.
  intros E. destruct (Nat.le_gt_cases (length x) 1) as [Hshort|Hlong].
  - rewrite get_volatility_short in E by exact Hshort. discriminate.
  - rewrite get_volatility_outputs in E by exact Hlong.
    injection E as <-. split; [exact Hlong | reflexivity].
Qed.

(** For parameters of the documented signs ([omega], [alpha_1], [beta_1] and
    [initial_vol] not below zero), a returned volatility sequence has no
    entry below zero and its squares follow the variance recurrence
    [vol[t]^2 = omega + alpha_1 * x[t-1]^2 + beta_1 * vol[t-1]^2]. *)
Theorem volatility_nonnegative (self : GARCH11.t) (x vol : list R) :
  0 <= GARCH11.omega self ->
  0 <= GARCH11.alpha_1 self ->
  0 <= GARCH11.beta_1 self ->
  0 <= GARCH11.initial_vol self ->
  GARCH11.get_volatility self (Vector x) = Ok (Vector vol) ->
  Forall (fun v => 0 <= v) vol /\
  (forall t : nat, (1 <= t < length vol)%nat ->
     nth t vol 0 ^ 2
     = GARCH11.omega self
       + GARCH11.alpha_1 self * nth (t - 1) x 0 ^ 2
       + GARCH11.beta_1 self * nth (t - 1) vol 0 ^ 2).
Proof.
  intros Hw Ha Hb Hv E.
  destruct (get_volatility_Ok self x vol E) as [Hx ->].
  set (step := fun a vol : R =>
                 GARCH11.volatility_update a vol (GARCH11.omega self)
                   (GARCH11.alpha_1 self) (GARCH11.beta_1 self)).
  split.
  - constructor; [exact Hv|].
    apply scan_Forall. intros a w. apply sqrt_pos.
  - intros t [Ht1 Ht2]. simpl length in Ht2.
    rewrite length_scan, length_removelast_pred in Ht2.
    destruct t as [|t]; [lia|].
    replace (S t - 1)%nat with t by lia.
    assert (Ht : (t < Nat.pred (length x))%nat) by lia.
    rewrite (nth_scan step 0 0) by (rewrite length_removelast_pred; exact Ht).
    rewrite nth_removelast by exact Ht.
    unfold step, GARCH11.volatility_update.
    rewrite <- !Rsqr_pow2, Rsqr_sqrt; [reflexivity|].
    apply Rplus_le_le_0_compat;
      [apply Rplus_le_le_0_compat; [exact Hw|] |];
      (apply Rmult_le_pos; [assumption | apply Rle_0_sqr]).
Qed.

Lemma volatility_nonnegative_witness :
  let self := {| GARCH11.omega := 1; GARCH11.alpha_1 := / 2;
                 GARCH11.beta_1 := / 4; GARCH11.initial_vol := 1 |} in
  Forall (fun v => 0 <= v)
    (1 :: scan_outputs (fun a vol => GARCH11.volatility_update a vol 1 (/ 2) (/ 4))
            [3; -2] 1).
Proof.
  intros self.
  apply (volatility_nonnegative self [3; -2; 5]).
  - simpl. lra.
  - simpl. lra.
  - simpl. lra.
  - simpl. lra.
  - reflexivity.
Defined.

(** For [omega], [alpha_1] and [beta_1] not below zero, every volatility
    after the first is at least [sqrt omega]. *)
Theorem volatility_floor (self : GARCH11.t) (x vol : list R) (t : nat) :
  0 <= GARCH11.omega self ->
  0 <= GARCH11.alpha_1 self ->
  0 <= GARCH11.beta_1 self ->
  GARCH11.get_volatility self (Vector x) = Ok (Vector vol) ->
  (1 <= t < length vol)%nat ->
  sqrt (GARCH11.omega self) <= nth t vol 0.
Proof.
  intros Hw Ha Hb E Ht.
  destruct (get_volatility_Ok self x vol E) as [_ ->].
  destruct t as [|t]; [lia|]. simpl nth.
  assert (HF : Forall (fun v => sqrt (GARCH11.omega self) <= v)
                 (scan_outputs
                    (fun a vol => GARCH11.volatility_update a vol (GARCH11.omega self)
                                    (GARCH11.alpha_1 self) (GARCH11.beta_1 self))
                    (removelast x) (GARCH11.initial_vol self))).
  { apply scan_Forall. intros a w. unfold GARCH11.volatility_update.
    pose proof (Rle_0_sqr a). pose proof (Rle_0_sqr w).
    apply sqrt_le_1; [exact Hw | nra | nra]. }
  rewrite Forall_forall in HF. apply HF. apply nth_In.
  simpl in Ht. lia.
Qed.

Lemma volatility_floor_witness :
  sqrt 1 <= nth 2 (1 :: scan_outputs
                          (fun a vol => GARCH11.volatility_update a vol 1 (/ 2) (/ 4))
                          [3; -2] 1) 0.
Proof.
  apply (volatility_floor
           {| GARCH11.omega := 1; GARCH11.alpha_1 := / 2;
              GARCH11.beta_1 := / 4; GARCH11.initial_vol := 1 |} [3; -2; 5]).
  - simpl. lra.
  - simpl. lra.
  - simpl. lra.
  - reflexivity.
  - simpl. lia.
Defined.

(** Observations appended to a sequence of at least two leave the
    volatilities of that sequence as they were: the volatility of [x] is the
    start of the volatility of [x ++ y]. *)
Theorem volatility_prefix (self : GARCH11.t) (x y : list R) :
  (2 <= length x)%nat ->
  exists vol vol' : list R,
    GARCH11.get_volatility self (Vector x) = Ok (Vector vol) /\
    GARCH11.get_volatility self (Vector (x ++ y)) = Ok (Vector vol') /\
    length vol = length x /\
    vol = firstn (length x) vol'.
Proof.
  intros Hx.
  rewrite !get_volatility_outputs by (rewrite ?length_app; lia).
  do 2 eexists. split; [reflexivity|]. split; [reflexivity|].
  assert (Hlen : length (GARCH11.initial_vol self
                         :: scan_outputs
                              (fun a vol =>
                                 GARCH11.volatility_update a vol (GARCH11.omega self)
                                   (GARCH11.alpha_1 self) (GARCH11.beta_1 self))
                              (removelast x) (GARCH11.initial_vol self))
                 = length x).
  { rewrite length_cons, length_scan, length_removelast_pred. lia. }
  split; [exact Hlen|]. clear Hlen.
  assert (Hcut : removelast x = firstn (Nat.pred (length x)) (removelast (x ++ y))).
  { rewrite (removelast_firstn_len (x ++ y)), firstn_firstn, length_app.
    replace (Nat.min (Nat.pred (length x)) (Nat.pred (length x + length y)))
      with (Nat.pred (length x)) by lia.
    rewrite firstn_app.
    replace (Nat.pred (length x) - length x)%nat with 0%nat by lia.
    simpl firstn. rewrite app_nil_r.
    apply removelast_firstn_len. }
  destruct (length x) as [|n]; [lia|].
  rewrite firstn_cons, scan_firstn. simpl Nat.pred in Hcut.
  now rewrite <- Hcut.
Qed.

Lemma volatility_prefix_witness :
  let self := {| GARCH11.omega := 1; GARCH11.alpha_1 := / 2;
                 GARCH11.beta_1 := / 4; GARCH11.initial_vol := 1 |} in
  exists vol vol' : list R,
    GARCH11.get_volatility self (Vector [3; -2]) = Ok (Vector vol) /\
    GARCH11.get_volatility self (Vector ([3; -2] ++ [5; 7])) = Ok (Vector vol') /\
    length vol = length [3; -2] /\
    vol = firstn (length [3; -2]) vol'.
Proof.
  intros self.
  apply (volatility_prefix self [3; -2] [5; 7]).
  simpl; lia.
Defined.

(** ** The Normal density on vectors of scales *)

Section NormalLogpScales.

Context `{NormalDensity}.

Lemma Normal_dist_sigma_vector (m : tensor R) (s : list R) :
  Normal.dist m (Some (Vector s)) None
  = Ok {| Normal.mu := m; Normal.tau := Vector (map (fun a => / (a ^ 2)) s);
          Normal.sigma := Vector s |}.
Proof. reflexivity. Qed.

(** One mean, a scale per position. *)
Lemma Normal_logp_scales (m : R) (s v : list R) :
  length s = length v ->
  Normal.logp {| Normal.mu := Scalar m; Normal.tau := Vector (map (fun a => / (a ^ 2)) s);
                 Normal.sigma := Vector s |} (Vector v)
  = Ok (Vector (map (fun t => normal_sigma m (nth t s 0) (nth t v 0)) (seq 0 (length v)))).
Proof.
  intros E. unfold Normal.logp.
  cbn [Normal.mu Normal.tau Normal.sigma tzip].
  rewrite length_map, Nat.eqb_refl, !bind_Ok.
  cbn [tzip]. rewrite length_combine, !length_map, Nat.min_id, E, Nat.eqb_refl, bind_Ok.
  cbn [tmap]. do 2 f_equal.
  rewrite combine_map_l, (combine_map_l _ _ _ _ (combine s s)), !map_map. cbn [fst snd].
  rewrite <- E.
  revert v E.
  induction s as [|a s IH]; intros [|b v] E; simpl in E; try discriminate;
    [reflexivity|].
  simpl combine. simpl map at 1. simpl length.
  change (seq 0 (S (length s))) with (0%nat :: seq 1 (length s)).
  rewrite map_cons. apply (f_equal2 cons); [reflexivity|].
  rewrite <- seq_shift, map_map. apply IH. now injection E.
Qed.

(** A mean and a scale per position. *)
Lemma Normal_logp_means_scales (m s v : list R) :
  length m = length v -> length s = length v ->
  Normal.logp {| Normal.mu := Vector m; Normal.tau := Vector (map (fun a => / (a ^ 2)) s);
                 Normal.sigma := Vector s |} (Vector v)
  = Ok (Vector (map (fun t => normal_sigma (nth t m 0) (nth t s 0) (nth t v 0))
                    (seq 0 (length v)))).
Proof.
  intros Em Es. unfold Normal.logp.
  cbn [Normal.mu Normal.tau Normal.sigma tzip].
  rewrite Em, length_map, !Nat.eqb_refl, !bind_Ok.
  cbn [tzip]. rewrite !length_combine, !length_map, Nat.min_id, Es, Em, Nat.min_id,
    Nat.eqb_refl, bind_Ok.
  cbn [tmap]. do 2 f_equal.
  rewrite combine_map_l, (combine_map_l _ _ _ _ (combine s s)), !map_map. cbn [fst snd].
  revert m s Em Es. induction v as [|b v IH]; intros [|a m] [|c s] Em Es; simpl in Em, Es;
    try discriminate; [reflexivity|].
  simpl combine. simpl length.
  change (seq 0 (S (length v))) with (0%nat :: seq 1 (length v)).
  rewrite !map_cons. apply (f_equal2 cons); [reflexivity|].
  rewrite <- seq_shift, map_map. apply IH; congruence.
Qed.

End NormalLogpScales.

(** [GARCH11.logp] on a sequence of at least two observations returns the
    sum over its positions of the Normal log-density of [x[t]] under mean 0
    and standard deviation [vol[t]]; on a shorter sequence it raises, as
    [get_volatility] does. *)
Theorem GARCH11_logp_sum `{NormalDensity} (self : GARCH11.t) (x : list R) :
  ((2 <= length x)%nat ->
   exists vol : list R,
     GARCH11.get_volatility self (Vector x) = Ok (Vector vol) /\
     GARCH11.logp self (Vector x)
     = Ok (Scalar (sumR (map (fun t => normal_sigma 0 (nth t vol 0) (nth t x 0))
                             (seq 0 (length x)))))) /\
  ((length x <= 1)%nat ->
   GARCH11.logp self (Vector x) = Raise NotImplementedError).
Proof.
  split.
  - intros Hx. eexists. split; [now apply get_volatility_outputs|].
    unfold GARCH11.logp.
    rewrite get_volatility_outputs by exact Hx.
    rewrite bind_Ok, Normal_dist_sigma_vector, bind_Ok.
    rewrite Normal_logp_scales; [now rewrite bind_Ok|].
    rewrite length_cons, length_scan, length_removelast_pred. lia.
  - intros Hx. unfold GARCH11.logp.
    now rewrite get_volatility_short by exact Hx.
Qed.

Lemma GARCH11_logp_sum_witness :
  let self := {| GARCH11.omega := 1; GARCH11.alpha_1 := / 2;
                 GARCH11.beta_1 := / 4; GARCH11.initial_vol := 1 |} in
  (exists vol : list R,
      GARCH11.get_volatility self (Vector [3; -2]) = Ok (Vector vol) /\
      @GARCH11.logp gaussian self (Vector [3; -2])
      = Ok (Scalar (sumR (map (fun t => @normal_sigma gaussian 0 (nth t vol 0)
                                          (nth t [3; -2] 0))
                              (seq 0 (length [3; -2])))))) /\
  @GARCH11.logp gaussian self (Vector [5]) = Raise NotImplementedError.
Proof.
  intros self. split.
  - apply (@GARCH11_logp_sum gaussian self [3; -2]). simpl; lia.
  - apply (@GARCH11_logp_sum gaussian self [5]). simpl; lia.
Defined.

(** ** Positions of mapped and sliced sequences *)

Lemma nth_map_in (A B : Type) (f : A -> B) (l : list A) (t : nat) (d : A) (d' : B) :
  (t < length l)%nat -> nth t (map f l) d' = f (nth t l d).
Proof.
  intros Ht. rewrite (nth_indep _ d' (f d)) by (rewrite length_map; exact Ht).
  apply map_nth.
Qed.

Lemma nth_tl (A : Type) (l : list A) (t : nat) (d : A) :
  nth t (tl l) d = nth (S t) l d.
Proof. destruct l; [now destruct t | reflexivity]. Qed.

Lemma length_tl_pred (A : Type) (l : list A) : length (tl l) = Nat.pred (length l).
Proof. now destruct l. Qed.

(** ** EulerMaruyama, continued *)

(** When [sde_fn] returns one drift and one diffusion per transition,
    [EulerMaruyama.logp] is the sum over the transitions of the Normal
    log-density of [x[i]] under mean [x[i-1] + dt * f[i-1]] and standard
    deviation [sqrt dt * g[i-1]]. *)
Theorem EulerMaruyama_logp_sum `{NormalDensity} (self : EulerMaruyama.t) (h : R)
    (x f g : list R) :
  EulerMaruyama.dt self = Scalar h ->
  EulerMaruyama.sde_fn self (Vector (removelast x)) (EulerMaruyama.sde_pars self)
  = Ok (Vector f, Vector g) ->
  length f = Nat.pred (length x) ->
  length g = Nat.pred (length x) ->
  EulerMaruyama.logp self (Vector x)
  = Ok (Scalar (sumR (map (fun i => normal_sigma (nth (i - 1) x 0 + h * nth (i - 1) f 0)
                                      (sqrt h * nth (i - 1) g 0) (nth i x 0))
                          (seq 1 (length x - 1))))).
Proof.
  intros Hdt Hsde Hf Hg. unfold EulerMaruyama.logp.
  rewrite getslice_init, !bind_Ok, Hsde, bind_Ok, Hdt.
  unfold tt.mul at 1. rewrite elemwise_scalar_vector, bind_Ok.
  unfold tt.add2. rewrite elemwise_vector_vector
    by (rewrite length_map, length_removelast_pred; congruence).
  rewrite bind_Ok.
  change (tt.sqrt (Scalar h)) with (Scalar (sqrt h)).
  unfold tt.mul. rewrite elemwise_scalar_vector, bind_Ok.
  rewrite Normal_dist_sigma_vector, bind_Ok, getslice_tail, bind_Ok.
  rewrite Normal_logp_means_scales.
  2: { rewrite length_map, length_combine, length_map, length_removelast_pred,
         length_tl_pred. lia. }
  2: { rewrite length_map, length_tl_pred. exact Hg. }
  rewrite bind_Ok. f_equal.
  change (tt.sum (Vector ?l)) with (Scalar (sumR l)). do 2 f_equal.
  rewrite length_tl_pred.
  replace (length x - 1)%nat with (Nat.pred (length x)) by lia.
  rewrite <- seq_shift, map_map.
  apply map_ext_in. intros t Ht. apply in_seq in Ht.
  replace (S t - 1)%nat with t by lia.
  rewrite nth_tl.
  rewrite (nth_map_in _ _ _ _ _ (0, 0))
    by (rewrite length_combine, length_map, length_removelast_pred; lia).
  rewrite combine_nth by (rewrite length_map, length_removelast_pred; congruence).
  cbn [fst snd].
  rewrite nth_removelast by lia.
  rewrite (nth_map_in _ _ (Rmult h) _ _ 0) by lia.
  rewrite (nth_map_in _ _ (Rmult (sqrt h)) _ _ 0) by lia.
  reflexivity.
Qed.

Lemma EulerMaruyama_logp_sum_witness :
  @EulerMaruyama.logp gaussian
    {| EulerMaruyama.dt := Scalar (/ 4); EulerMaruyama.sde_fn := linear_sde;
       EulerMaruyama.sde_pars := [Scalar (-1); Scalar 2] |}
    (Vector [1; 2; 3])
  = Ok (Scalar (sumR (map (fun i =>
                             @normal_sigma gaussian
                               (nth (i - 1) [1; 2; 3] 0
                                + / 4 * nth (i - 1) [-1 * 1; -1 * 2] 0)
                               (sqrt (/ 4) * nth (i - 1) [0 + 2; 0 + 2] 0)
                               (nth i [1; 2; 3] 0))
                          (seq 1 (length [1; 2; 3] - 1))))).
Proof.
  apply (@EulerMaruyama_logp_sum gaussian); reflexivity.
Defined.

(** ** GaussianRandomWalk, continued *)

Section Walk_vectors.

Context `{NormalDensity}.

Lemma nth_map_seq (F : nat -> R) (n t : nat) :
  (t < n)%nat -> nth t (map F (seq 0 n)) 0 = F t.
Proof.
  intros Ht. rewrite (nth_map_in _ _ F _ _ 0%nat) by (rewrite length_seq; exact Ht).
  now rewrite seq_nth.
Qed.

(** The Normal built from a vector of means and a scalar or aligned vector of
    standard deviations, by position. *)
Lemma Normal_logp_positions (m v : list R) (sigma : tensor R) :
  length m = length v ->
  aligned (length v) sigma = true ->
  exists d : Normal.t,
    Normal.dist (Vector m) (Some sigma) None = Ok d /\
    Normal.logp d (Vector v)
    = Ok (Vector (map (fun t => normal_sigma (nth t m 0) (entry sigma t) (nth t v 0))
                      (seq 0 (length v)))).
Proof.
  intros Em Hs. destruct sigma as [s|sl]; simpl in Hs.
  - eexists. split; [apply Normal_dist_sigma|].
    rewrite Normal_logp_vector by exact Em.
    rewrite (map_combine_seq _ _ _ (fun a b => logpdf a (/ (s ^ 2)) s b) 0 0) by exact Em.
    now rewrite Em.
  - apply Nat.eqb_eq in Hs.
    eexists. split; [apply Normal_dist_sigma_vector|].
    now rewrite Normal_logp_means_scales.
Qed.

(** [logp] of a walk over a non-empty sequence, whatever the rank of [mu] and
    [sigma]: the element at position [i >= 1] is scored under the Normal with
    mean [x[i-1] + mu[i]] and standard deviation [sigma[i]], so the first
    entries of a vector-valued [mu] or [sigma] play no part. *)
Lemma walk_logp_positions (self : GaussianRandomWalk.t) (x0 : R) (rest : list R) :
  aligned (S (length rest)) (GaussianRandomWalk.mu self) = true ->
  aligned (S (length rest)) (GaussianRandomWalk.sigma self) = true ->
  GaussianRandomWalk.logp self (Vector (x0 :: rest))
  = (init_like <- distribution.logp (GaussianRandomWalk.init self) (Scalar x0) ;;
     tt.add2 init_like
       (Scalar (sumR (map (fun i =>
                             normal_sigma
                               (nth (i - 1) (x0 :: rest) 0
                                + entry (GaussianRandomWalk.mu self) i)
                               (entry (GaussianRandomWalk.sigma self) i)
                               (nth i (x0 :: rest) 0))
                          (seq 1 (length rest)))))).
Proof.
  intros Hmu Hsigma. unfold GaussianRandomWalk.logp.
  change (Nat.ltb 0 (ndim (Vector (x0 :: rest)))) with true. cbv iota.
  rewrite getslice_init, getslice_tail, getitem_deferred_head, !bind_Ok.
  change (distribution.logp_graph (GaussianRandomWalk.init self) (Scalar (Ok x0)))
    with (distribution.logp (GaussianRandomWalk.init self) (Scalar x0)).
  change (tl (x0 :: rest)) with rest.
  set (mu := GaussianRandomWalk.mu self) in *.
  set (sigma := GaussianRandomWalk.sigma self) in *.
  set (sigma' := match sigma with Scalar a => Scalar a | Vector l => Vector (tl l) end).
  set (mu' := match mu with Scalar a => Scalar a | Vector l => Vector (tl l) end).
  assert (E : GaussianRandomWalk._mu_and_sigma mu sigma = Ok (mu', sigma')).
  { unfold GaussianRandomWalk._mu_and_sigma, mu', sigma'.
    destruct mu, sigma; cbn [ndim Nat.ltb Nat.leb]; rewrite ?getslice_tail; reflexivity. }
  rewrite E, bind_Ok.
  assert (Es : aligned (length rest) sigma' = true /\
               forall t, entry sigma' t = entry sigma (S t)).
  { unfold sigma'. destruct sigma as [a|l]; [now split|]. simpl in Hsigma.
    apply Nat.eqb_eq in Hsigma. split.
    - simpl. rewrite length_tl_pred, Hsigma. apply Nat.eqb_refl.
    - intros t. apply nth_tl. }
  destruct Es as [Hs' Hentry].
  assert (Emean : tt.add2 (Vector (removelast (x0 :: rest))) mu'
                  = Ok (Vector (map (fun t => nth t (x0 :: rest) 0 + entry mu (S t))
                                    (seq 0 (length rest))))).
  { unfold mu', tt.add2. destruct mu as [a|l].
    - rewrite elemwise_vector_scalar. do 2 f_equal.
      apply (nth_ext _ _ 0 0).
      + now rewrite !length_map, length_seq, length_removelast_pred.
      + intros t Ht. rewrite length_map, length_removelast_pred in Ht. simpl in Ht.
        rewrite nth_map_seq by exact Ht.
        rewrite (nth_map_in _ _ (fun a0 => a0 + a) _ _ 0)
          by (rewrite length_removelast_pred; exact Ht).
        now rewrite nth_removelast by exact Ht.
    - simpl in Hmu. apply Nat.eqb_eq in Hmu.
      assert (Hl : length (removelast (x0 :: rest)) = length (tl l))
        by (rewrite length_removelast_pred, length_tl_pred, Hmu; reflexivity).
      rewrite elemwise_vector_vector by exact Hl. do 2 f_equal.
      rewrite (map_combine_seq _ _ _ Rplus 0 0) by exact Hl.
      rewrite length_removelast_pred. simpl length. simpl Nat.pred.
      apply map_ext_in. intros t Ht. apply in_seq in Ht.
      rewrite nth_removelast by (simpl; lia).
      now rewrite nth_tl. }
  rewrite Emean, bind_Ok.
  set (mean := map _ (seq 0 (length rest))).
  destruct (Normal_logp_positions mean rest sigma') as (d & Ed & Elike);
    [unfold mean; now rewrite length_map, length_seq | exact Hs' |].
  rewrite Ed, bind_Ok, Elike, !bind_Ok.
  change (tt.sum (Vector ?l)) with (Scalar (sumR l)).
  rewrite <- (seq_shift (length rest) 0), (map_map S).
  assert (Hmaps :
            map (fun t => normal_sigma (nth t mean 0) (entry sigma' t) (nth t rest 0))
                (seq 0 (length rest))
            = map (fun t => normal_sigma (nth (S t - 1) (x0 :: rest) 0 + entry mu (S t))
                              (entry sigma (S t)) (nth (S t) (x0 :: rest) 0))
                  (seq 0 (length rest))).
  { apply map_ext_in. intros t Ht. apply in_seq in Ht.
    replace (S t - 1)%nat with t by lia.
    unfold mean. rewrite nth_map_seq by lia.
    now rewrite Hentry. }
  now rewrite Hmaps.
Qed.

End Walk_vectors.

(** For a walk whose [mu] and [sigma] are scalars or have the length of [x],
    [logp x] is [init.logp(x[0])] plus the sum over the positions [i >= 1] of
    the Normal log-density of [x[i]] under mean [x[i-1] + mu[i]] and standard
    deviation [sigma[i]]. *)
Theorem walk_logp_by_position `{NormalDensity} (self : GaussianRandomWalk.t) (x : list R) :
  (1 <= length x)%nat ->
  aligned (length x) (GaussianRandomWalk.mu self) = true ->
  aligned (length x) (GaussianRandomWalk.sigma self) = true ->
  GaussianRandomWalk.logp self (Vector x)
  = (init_like <- distribution.logp (GaussianRandomWalk.init self) (Scalar (nth 0 x 0)) ;;
     tt.add2 init_like
       (Scalar (sumR (map (fun i =>
                             normal_sigma
                               (nth (i - 1) x 0 + entry (GaussianRandomWalk.mu self) i)
                               (entry (GaussianRandomWalk.sigma self) i)
                               (nth i x 0))
                          (seq 1 (length x - 1)))))).
Proof.
  intros Hx Hmu Hsigma. destruct x as [|x0 rest]; [simpl in Hx; lia|].
  replace (length (x0 :: rest) - 1)%nat with (length rest) by (simpl; lia).
  now apply walk_logp_positions.
Qed.

Lemma walk_logp_by_position_witness :
  let self := {| GaussianRandomWalk.shape := [3%nat];
                 GaussianRandomWalk.tau := Vector [/ (7 ^ 2); / (2 ^ 2); / (3 ^ 2)];
                 GaussianRandomWalk.sigma := Vector [7; 2; 3];
                 GaussianRandomWalk.mu := Vector [9; 1; -1];
                 GaussianRandomWalk.init := Flat.dist |} in
  @GaussianRandomWalk.logp gaussian self (Vector [5; 6; 8])
  = Ok (Scalar (0 + (@normal_sigma gaussian (5 + 1) 2 6
                     + (@normal_sigma gaussian (6 + -1) 3 8 + 0)))).
Proof.
  intros self.
  apply (@walk_logp_by_position gaussian self [5; 6; 8]).
  - simpl; lia.
  - reflexivity.
  - reflexivity.
Defined.

(** The first entries of a vector-valued [mu] and [sigma] are discarded: two
    walks with the same [init] whose parameters agree from position 1 on give
    the same [logp]. *)
Theorem walk_discards_first_entries `{NormalDensity}
    (self self' : GaussianRandomWalk.t) (x : list R) :
  (1 <= length x)%nat ->
  aligned (length x) (GaussianRandomWalk.mu self) = true ->
  aligned (length x) (GaussianRandomWalk.sigma self) = true ->
  aligned (length x) (GaussianRandomWalk.mu self') = true ->
  aligned (length x) (GaussianRandomWalk.sigma self') = true ->
  GaussianRandomWalk.init self = GaussianRandomWalk.init self' ->
  (forall i, (1 <= i)%nat ->
     entry (GaussianRandomWalk.mu self) i = entry (GaussianRandomWalk.mu self') i /\
     entry (GaussianRandomWalk.sigma self) i = entry (GaussianRandomWalk.sigma self') i) ->
  GaussianRandomWalk.logp self (Vector x) = GaussianRandomWalk.logp self' (Vector x).
Proof.
  intros Hx Hmu Hsigma Hmu' Hsigma' Hinit Hentries.
  destruct x as [|x0 rest]; [simpl in Hx; lia|].
  rewrite !walk_logp_positions by assumption.
  rewrite Hinit.
  assert (Hmaps :
            map (fun i => normal_sigma
                            (nth (i - 1) (x0 :: rest) 0 + entry (GaussianRandomWalk.mu self) i)
                            (entry (GaussianRandomWalk.sigma self) i) (nth i (x0 :: rest) 0))
                (seq 1 (length rest))
            = map (fun i => normal_sigma
                              (nth (i - 1) (x0 :: rest) 0 + entry (GaussianRandomWalk.mu self') i)
                              (entry (GaussianRandomWalk.sigma self') i) (nth i (x0 :: rest) 0))
                  (seq 1 (length rest))).
  { apply map_ext_in. intros i Hi. apply in_seq in Hi.
    destruct (Hentries i) as [-> ->]; [lia | reflexivity]. }
  now rewrite Hmaps.
Qed.

Lemma walk_discards_first_entries_witness :
  @GaussianRandomWalk.logp gaussian
    {| GaussianRandomWalk.shape := [2%nat];
       GaussianRandomWalk.tau := Scalar (/ (2 ^ 2));
       GaussianRandomWalk.sigma := Vector [7; 2];
       GaussianRandomWalk.mu := Vector [9; 1];
       GaussianRandomWalk.init := Flat.dist |} (Vector [5; 6])
  = @GaussianRandomWalk.logp gaussian
      {| GaussianRandomWalk.shape := [2%nat];
         GaussianRandomWalk.tau := Scalar (/ (2 ^ 2));
         GaussianRandomWalk.sigma := Vector [8; 2];
         GaussianRandomWalk.mu := Vector [-4; 1];
         GaussianRandomWalk.init := Flat.dist |} (Vector [5; 6]).
Proof.
  apply (@walk_discards_first_entries gaussian); try reflexivity.
  - simpl; lia.
  - intros [|[|i]] Hi; [lia | now split | now split].
Defined.

(** Under a flat [init], [logp] is unchanged when the same constant is added
    to every element of a non-empty sequence, for every aligned drift and
    scale.  The Normal density enters as a location family. *)
Theorem walk_shift_invariant `{NormalDensity} (self : GaussianRandomWalk.t)
    (x : list R) (c : R) :
  (forall mu tau sigma v : R, logpdf mu tau sigma v = logpdf 0 tau sigma (v - mu)) ->
  (1 <= length x)%nat ->
  aligned (length x) (GaussianRandomWalk.mu self) = true ->
  aligned (length x) (GaussianRandomWalk.sigma self) = true ->
  GaussianRandomWalk.init self = Flat.dist ->
  GaussianRandomWalk.logp self (Vector (map (fun a => a + c) x))
  = GaussianRandomWalk.logp self (Vector x).
Proof.
  intros Hloc Hx Hmu Hsigma Hinit.
  destruct x as [|x0 rest]; [simpl in Hx; lia|].
  change (map (fun a => a + c) (x0 :: rest)) with (x0 + c :: map (fun a => a + c) rest).
  rewrite !walk_logp_positions by (rewrite ?length_map; assumption).
  rewrite Hinit, length_map.
  change (distribution.logp Flat.dist (Scalar ?a)) with (Ok (Scalar 0)).
  rewrite !bind_Ok.
  do 3 f_equal. apply map_ext_in. intros i Hi. apply in_seq in Hi.
  change (x0 + c :: map (fun a => a + c) rest) with (map (fun a => a + c) (x0 :: rest)).
  rewrite !(nth_map_in _ _ (fun a => a + c) _ _ 0) by (simpl; lia).
  unfold normal_sigma.
  rewrite Hloc, (Hloc (nth (i - 1) (x0 :: rest) 0 + _)).
  f_equal. ring.
Qed.

Lemma walk_shift_invariant_witness :
  let self := {| GaussianRandomWalk.shape := [3%nat];
                 GaussianRandomWalk.tau := Scalar (/ (2 ^ 2));
                 GaussianRandomWalk.sigma := Scalar 2;
                 GaussianRandomWalk.mu := Vector [9; 1; -1];
                 GaussianRandomWalk.init := Flat.dist |} in
  @GaussianRandomWalk.logp gaussian self (Vector (map (fun a => a + 10) [5; 6; 8]))
  = @GaussianRandomWalk.logp gaussian self (Vector [5; 6; 8]).
Proof.
  intros self.
  apply (@walk_shift_invariant gaussian self [5; 6; 8] 10); try reflexivity.
  - exact gaussian_location.
  - simpl; lia.
Defined.

(** ** Sequences without a first element *)




(** ** AR(p), continued *)

Lemma mul_singleton (r : R) (l : list R) :
  tt.mul (Vector [r]) (Vector l) = tt.mul (Scalar r) (Vector l).
Proof.
  unfold tt.mul, elemwise, tzip.
  destruct (Nat.eqb (length [r]) (length l)) eqn:E; [|reflexivity].
  apply Nat.eqb_eq in E. destruct l as [|a [|b l]]; simpl in E; try discriminate.
  reflexivity.
Qed.

Lemma slice_head (A : Type) (p : nat) (l : list A) :
  slice None (Some (Z.of_nat p)) l = firstn p l.
Proof.
  unfold slice, clamp.
  replace (Z.of_nat p <? 0)%Z with false by (symmetry; apply Z.ltb_ge; lia).
  change (skipn (Z.to_nat 0) l) with l.
  destruct (Nat.le_gt_cases p (length l)) as [Hle|Hgt].
  - f_equal. lia.
  - rewrite (firstn_all2 (n := p)) by lia.
    apply firstn_all2. lia.
Qed.

(** A lag-one AR without constant gives the same [logp] whether its
    coefficient is a 0-d tensor variable or a one-element list; a 0-d numpy
    array and a plain Python number are refused at construction, since the
    lag order cannot be read off them. *)
Theorem AR_coefficient_rank `{NormalDensity} (r : R) (sigma tau : option (tensor R))
    (constant : bool) (init : option distribution.Continuous) (sd : option (tensor R))
    (value : tensor R) :
  (self <- AR.__init__ (TensorVariable (Scalar r)) sigma tau false init sd ;;
   AR.logp self value)
  = (self <- AR.__init__ (Vector [r]) sigma tau false init sd ;; AR.logp self value) /\
  (exists e : exn,
      AR.__init__ (ndarray (Scalar r)) sigma tau constant init sd = Raise e /\
      (e = IndexError \/ e = ValueError)) /\
  (exists e : exn,
      AR.__init__ (number r) sigma tau constant init sd = Raise e /\
      (e = AttributeError \/ e = ValueError)).
Proof.
  split; [|split].
  - unfold AR.__init__.
    destruct (get_tau_sigma tau _) as [[t s]|e]; [|reflexivity].
    rewrite !bind_Ok. cbn [length Z.of_nat Pos.of_succ_nat as_tensor_variable].
    unfold AR.logp. cbn [AR.tau AR.p AR.init].
    assert (E : forall rho,
               AR.eps {| AR.sigma := s; AR.tau := t; AR.p := 1; AR.constant := false;
                         AR.rho := rho; AR.init := default Flat.dist init |} value
               = (x <- (value_im1 <- getslice value None (Some (-1)%Z) ;;
                        tt.mul rho value_im1) ;;
                  tail <- getslice value (Some 1%Z) None ;;
                  tt.sub tail x)) by reflexivity.
    rewrite !E.
    destruct value as [a|l]; [reflexivity|].
    rewrite getslice_init, !bind_Ok.
    now rewrite mul_singleton.
  - unfold AR.__init__.
    destruct (get_tau_sigma tau _) as [[t s]|e] eqn:Escale.
    + exists IndexError. split; [reflexivity | now left].
    + exists e. split; [reflexivity | right].
      destruct tau, (match sd with Some s => Some s | None => sigma end);
        simpl in Escale; congruence.
  - unfold AR.__init__.
    destruct (get_tau_sigma tau _) as [[t s]|e] eqn:Escale.
    + exists AttributeError. split; [reflexivity | now left].
    + exists e. split; [reflexivity | right].
      destruct tau, (match sd with Some s => Some s | None => sigma end);
        simpl in Escale; congruence.
Qed.

(** *** Slices by position *)

Lemma firstn_skipn_positions (x : list R) (lo m : nat) :
  (lo + m <= length x)%nat ->
  firstn m (skipn lo x) = map (fun t => nth (lo + t) x 0) (seq 0 m).
Proof.
  intros Hb. apply (nth_ext _ _ 0 0).
  - rewrite length_firstn, length_skipn, length_map, length_seq. lia.
  - intros t Ht. rewrite length_firstn, length_skipn in Ht.
    rewrite nth_firstn.
    destruct (Nat.ltb_spec t m); [|lia].
    rewrite nth_skipn.
    rewrite (nth_map_in _ _ _ _ _ 0%nat) by (rewrite length_seq; lia).
    now rewrite seq_nth by lia.
Qed.

(** [x[p - (i + 1) : -(i + 1)]], the lag [i + 1] of the elements from [p] on *)
Lemma slice_lag (x : list R) (p i : nat) :
  (i < p)%nat ->
  slice (Some (Z.of_nat p - (Z.of_nat i + 1))%Z) (Some (- (Z.of_nat i + 1))%Z) x
  = map (fun t => nth (p - (i + 1) + t) x 0) (seq 0 (length x - p)).
Proof.
  intros Hi. unfold slice, clamp.
  replace (Z.of_nat p - (Z.of_nat i + 1) <? 0)%Z with false
    by (symmetry; apply Z.ltb_ge; lia).
  replace (- (Z.of_nat i + 1) <? 0)%Z with true
    by (symmetry; apply Z.ltb_lt; lia).
  destruct (Nat.le_gt_cases (length x) p) as [Hle|Hgt].
  - replace (length x - p)%nat with 0%nat by lia.
    replace (Z.to_nat _) with 0%nat by lia. reflexivity.
  - replace (Z.to_nat (Z.max _ _ - Z.min _ _)) with (length x - p)%nat by lia.
    replace (Z.to_nat (Z.min _ _)) with (p - (i + 1))%nat by lia.
    apply firstn_skipn_positions. lia.
Qed.

(** [x[p:]] *)
Lemma slice_from (x : list R) (p : nat) :
  slice (Some (Z.of_nat p)) None x
  = map (fun t => nth (p + t) x 0) (seq 0 (length x - p)).
Proof.
  unfold slice, clamp.
  replace (Z.of_nat p <? 0)%Z with false by (symmetry; apply Z.ltb_ge; lia).
  destruct (Nat.le_gt_cases (length x) p) as [Hle|Hgt].
  - replace (length x - p)%nat with 0%nat by lia.
    replace (Z.to_nat (_ - _)) with 0%nat by lia. reflexivity.
  - replace (Z.to_nat (_ - _)) with (length x - p)%nat by lia.
    replace (Z.to_nat (Z.min _ _)) with p by lia.
    apply firstn_skipn_positions. lia.
Qed.

Lemma getitem_nth (l : list R) (j : nat) :
  (j < length l)%nat -> getitem (Vector l) (Z.of_nat j) = Ok (Scalar (nth j l 0)).
Proof.
  intros Hj. unfold getitem.
  replace (Z.of_nat j <? 0)%Z with false by (symmetry; apply Z.ltb_ge; lia).
  replace ((Z.of_nat j <? 0)%Z || (Z.of_nat (length l) <=? Z.of_nat j)%Z) with false.
  - now rewrite Nat2Z.id, (nth_error_nth' l 0 Hj).
  - symmetry. apply orb_false_intro; [apply Z.ltb_ge | apply Z.leb_gt]; lia.
Qed.

(** *** Sums of terms given by position *)

Lemma elemwise_positions (f : R -> R -> R) (F G : nat -> R) (s : list nat) :
  elemwise f (Vector (map F s)) (Vector (map G s))
  = Ok (Vector (map (fun t => f (F t) (G t)) s)).
Proof.
  rewrite elemwise_vector_vector by now rewrite !length_map.
  do 2 f_equal. induction s as [|t s IH]; simpl; [reflexivity|]. now rewrite IH.
Qed.

Lemma add_positions (G : nat -> nat -> R) (s : list nat) (i0 : nat) (rest : list nat) :
  tt.add (map (fun i => Vector (map (G i) s)) (i0 :: rest))
  = Ok (Vector (map (fun t => fold_left (fun acc i => acc + G i t) rest (G i0 t)) s)).
Proof.
  unfold tt.add. rewrite map_cons.
  generalize (G i0) as F.
  induction rest as [|i rest IH]; intros F; [reflexivity|].
  rewrite map_cons. cbn [fold_left]. rewrite bind_Ok.
  unfold tt.add2 at 2. rewrite elemwise_positions.
  apply (IH (fun t => F t + G i t)).
Qed.

Lemma mapM_Ok (A A' B : Type) (h : A -> A') (f : A' -> result B) (g : A -> B)
    (l : list A) :
  (forall a, In a l -> f (h a) = Ok (g a)) -> mapM f (map h l) = Ok (map g l).
Proof.
  induction l as [|a l IH]; intros Hf; [reflexivity|].
  simpl. rewrite Hf by now left. rewrite bind_Ok, IH; [reflexivity|].
  intros b Hb. apply Hf. now right.
Qed.

(** The terms of the prediction and their sum, for [p >= 1] lags read at the
    offset [off] of the coefficient vector. *)
Lemma AR_terms_sum (self : AR.t) (rs x : list R) (off p : nat) :
  AR.rho self = Vector rs ->
  AR.p self = Z.of_nat p ->
  (1 <= p)%nat ->
  (p + off <= length rs)%nat ->
  (terms <- mapM (AR.lag_term self (Z.of_nat off) (Vector x)) (range (Z.of_nat p)) ;;
   tt.add terms)
  = Ok (Vector (map (AR_prediction rs x off p) (seq 0 (length x - p)))).
Proof.
  intros Hrho Hp Hp1 Hlen.
  unfold range. rewrite Nat2Z.id.
  rewrite (mapM_Ok _ _ _ Z.of_nat _
             (fun i => Vector (map (fun t => nth (i + off) rs 0 * nth (p - (i + 1) + t) x 0)
                                   (seq 0 (length x - p))))).
  - rewrite bind_Ok.
    replace (seq 0 p) with (0%nat :: seq 1 (p - 1))
      by (destruct p; [lia | simpl; now rewrite Nat.sub_0_r]).
    rewrite (add_positions
               (fun i t => nth (i + off) rs 0 * nth (p - (i + 1) + t) x 0)).
    reflexivity.
  - intros i Hi. apply in_seq in Hi.
    unfold AR.lag_term. rewrite Hrho, Hp.
    rewrite <- Nat2Z.inj_add, getitem_nth by lia.
    rewrite bind_Ok. unfold getslice. rewrite slice_lag by lia.
    rewrite bind_Ok. unfold tt.mul.
    now rewrite elemwise_scalar_vector, map_map.
Qed.

Lemma removelast_positions (x : list R) :
  removelast x = map (fun t => nth t x 0) (seq 0 (length x - 1)).
Proof.
  rewrite removelast_firstn_len.
  replace (Nat.pred (length x)) with (length x - 1)%nat by lia.
  apply (firstn_skipn_positions x 0). lia.
Qed.

(** The residuals of [AR.logp] by position, for [p >= 1] lags. *)
Lemma AR_eps_positions (self : AR.t) (rs x : list R) (p : nat) :
  AR.rho self = Vector rs ->
  AR.p self = Z.of_nat p ->
  (1 <= p)%nat ->
  length rs = (p + (if AR.constant self then 1 else 0))%nat ->
  AR.eps self (Vector x)
  = Ok (Vector (map (fun t =>
                       if AR.constant self
                       then nth (p + t) x 0 - nth 0 rs 0 - AR_prediction rs x 1 p t
                       else nth (p + t) x 0 - AR_prediction rs x 0 p t)
                    (seq 0 (length x - p)))).
Proof.
  intros Hrho Hp Hp1 Hlen. unfold AR.eps.
  destruct (AR.constant self).
  - pose proof (AR_terms_sum self rs x 1 p Hrho Hp Hp1 ltac:(lia)) as Hsum.
    change (Z.of_nat 1) with 1%Z in Hsum.
    destruct (mapM (AR.lag_term self 1 (Vector x)) (range (AR.p self))) as [terms|e] eqn:Eterms;
      rewrite Hp in Eterms; rewrite Eterms in Hsum; [|discriminate].
    rewrite bind_Ok in Hsum. rewrite bind_Ok, Hsum, bind_Ok, Hp, Hrho.
    unfold getslice. rewrite slice_from, bind_Ok.
    pose proof (getitem_nth rs 0 ltac:(lia)) as Hrho0.
    change (Z.of_nat 0) with 0%Z in Hrho0. rewrite Hrho0, bind_Ok.
    unfold tt.sub. rewrite elemwise_vector_scalar, bind_Ok, map_map.
    apply elemwise_positions.
  - rewrite Hp.
    destruct (Z.eqb_spec (Z.of_nat p) 1) as [E1|E1].
    + assert (p = 1%nat) as -> by lia.
      destruct rs as [|r [|r' rs]]; simpl in Hlen; try discriminate.
      rewrite Hrho, getslice_init, bind_Ok, mul_singleton.
      unfold tt.mul. rewrite elemwise_scalar_vector, bind_Ok.
      unfold getslice. rewrite (slice_from x 1), bind_Ok.
      rewrite removelast_positions, map_map.
      unfold tt.sub. rewrite elemwise_positions. reflexivity.
    + pose proof (AR_terms_sum self rs x 0 p Hrho Hp Hp1 ltac:(lia)) as Hsum.
      change (Z.of_nat 0) with 0%Z in Hsum.
      destruct (mapM (AR.lag_term self 0 (Vector x)) (range (Z.of_nat p)))
        as [terms|e] eqn:Eterms; [|discriminate].
      rewrite bind_Ok in Hsum. rewrite bind_Ok, Hsum, bind_Ok.
      unfold getslice. rewrite slice_from, bind_Ok.
      apply elemwise_positions.
Qed.

(** [logp] from the residuals: their Normal(0, tau) scores and the score of
    the first [p] elements under [init]. *)
Lemma AR_logp_positions `{NormalDensity} (self : AR.t) (x : list R) (p : nat) (t : R)
    (residual : nat -> R) :
  AR.p self = Z.of_nat p ->
  AR.tau self = Scalar t ->
  AR.eps self (Vector x) = Ok (Vector (map residual (seq 0 (length x - p)))) ->
  AR.logp self (Vector x)
  = (init_like <- distribution.logp (AR.init self) (Vector (firstn p x)) ;;
     Ok (Scalar (sumR (map (fun i => normal_tau 0 t (residual i)) (seq 0 (length x - p)))
                 + tt.total init_like))).
Proof.
  intros Hp Htau Heps.
  unfold AR.logp. rewrite Heps, bind_Ok, Htau, Hp, Normal_dist_tau, bind_Ok.
  unfold getslice. rewrite slice_head.
  set (eps := map residual (seq 0 (length x - p))).
  assert (El : Normal.logp {| Normal.mu := Scalar 0; Normal.tau := Scalar t;
                              Normal.sigma := Scalar (/ sqrt t) |} (Vector eps)
               = Ok (Vector (map (normal_tau 0 t) eps))).
  { unfold Normal.logp, normal_tau. simpl. now rewrite !map_map. }
  rewrite El, !bind_Ok. unfold eps. rewrite map_map.
  destruct (distribution.logp (AR.init self) (Vector (firstn p x))); reflexivity.
Qed.

(** AR with [p >= 1] lags, on any sequence.  The residual for the element
    [x[p + t]] is that element minus the prediction from its [p] lags, and
    minus [rho[0]] when the constant term is included; [logp] is the sum of
    the Normal(0, tau) log-densities of the residuals plus the summed score
    of the first [p] elements under [init]. *)
Theorem AR_logp_lags `{NormalDensity} (sigma tau : option (tensor R))
    (constant : bool) (init : option distribution.Continuous) (sd : option (tensor R))
    (self : AR.t) (rs x : list R) (p : nat) (t : R) :
  AR.__init__ (Vector rs) sigma tau constant init sd = Ok self ->
  AR.tau self = Scalar t ->
  (1 <= p)%nat ->
  length rs = (p + (if constant then 1 else 0))%nat ->
  let residual := fun i =>
    if constant
    then nth (p + i) x 0 - nth 0 rs 0 - AR_prediction rs x 1 p i
    else nth (p + i) x 0 - AR_prediction rs x 0 p i in
  AR.p self = Z.of_nat p /\
  AR.eps self (Vector x) = Ok (Vector (map residual (seq 0 (length x - p)))) /\
  AR.logp self (Vector x)
  = (init_like <- distribution.logp (AR.init self) (Vector (firstn p x)) ;;
     Ok (Scalar (sumR (map (fun i => normal_tau 0 t (residual i)) (seq 0 (length x - p)))
                 + tt.total init_like))).
Proof.
  intros Hinit Htau Hp1 Hlen residual.
  destruct (AR_init_fields _ _ _ _ _ _ _ Hinit) as (Hrho & Hconst & _ & Hp).
  cbv zeta in Hp.
  assert (Hp' : AR.p self = Z.of_nat p) by (rewrite Hp, Hlen; destruct constant; lia).
  assert (Heps : AR.eps self (Vector x) = Ok (Vector (map residual (seq 0 (length x - p))))).
  { rewrite (AR_eps_positions self rs x p Hrho Hp' Hp1) by (rewrite Hconst; exact Hlen).
    unfold residual. now rewrite Hconst. }
  split; [exact Hp'|]. split; [exact Heps|].
  now apply AR_logp_positions.
Qed.

Lemma AR_logp_lags_witness :
  (self <- AR.__init__ (Vector [10; / 2; / 4]) (Some (Scalar 2)) None true None None ;;
   AR.eps self (Vector [1; 2; 3; 4]))
  = Ok (Vector (map (fun i => nth (2 + i) [1; 2; 3; 4] 0 - nth 0 [10; / 2; / 4] 0
                              - AR_prediction [10; / 2; / 4] [1; 2; 3; 4] 1 2 i)
                    (seq 0 (length [1; 2; 3; 4] - 2)))).
Proof.
  change (AR.__init__ (Vector [10; / 2; / 4]) (Some (Scalar 2)) None true None None)
    with (Ok {| AR.sigma := Scalar 2; AR.tau := Scalar (/ (2 ^ 2)); AR.p := 2;
                AR.constant := true; AR.rho := Vector [10; / 2; / 4];
                AR.init := Flat.dist |}).
  rewrite bind_Ok.
  destruct (@AR_logp_lags gaussian (Some (Scalar 2)) None true None None
              {| AR.sigma := Scalar 2; AR.tau := Scalar (/ (2 ^ 2)); AR.p := 2;
                 AR.constant := true; AR.rho := Vector [10; / 2; / 4];
                 AR.init := Flat.dist |} [10; / 2; / 4] [1; 2; 3; 4] 2 (/ (2 ^ 2))
              eq_refl eq_refl ltac:(simpl; lia) eq_refl)
    as (_ & E & _).
  exact E.
Defined.

(** ** The multivariate walks *)

Lemma removelast_map (A B : Type) (f : A -> B) (l : list A) :
  removelast (map f l) = map f (removelast l).
Proof.
  induction l as [|a l IH]; [reflexivity|].
  destruct l as [|b l]; [reflexivity|].
  change (f a :: removelast (map f (b :: l)) = f a :: map f (removelast (b :: l))).
  now rewrite IH.
Qed.

Lemma In_removelast (A : Type) (a : A) (l : list A) : In a (removelast l) -> In a l.
Proof.
  rewrite removelast_firstn_len. intros Hin.
  rewrite <- (firstn_skipn (Nat.pred (length l)) l).
  apply in_or_app. now left.
Qed.

Lemma In_tl (A : Type) (a : A) (l : list A) : In a (tl l) -> In a l.
Proof. destruct l; [easy | now right]. Qed.

(** Adding one row to both operands leaves their difference as it was. *)
Lemma row_sub_shift (a b c : list R) :
  length a = length c -> length b = length c ->
  row_sub (row_add a c) (row_add b c) = row_sub a b.
Proof.
  unfold row_sub, row_add.
  revert b c; induction a as [|a0 a IH]; intros [|b0 b] [|c0 c] Ha Hb;
    simpl in Ha, Hb; try discriminate; [reflexivity|].
  simpl. f_equal; [ring|]. apply IH; congruence.
Qed.

Lemma elemwise_rows (A B C : Type) (f : A -> B -> C) (l1 : list A) (l2 : list B) :
  length l1 = length l2 ->
  elemwise f (Vector l1) (Vector l2)
  = Ok (Vector (map (fun p => f (fst p) (snd p)) (combine l1 l2))).
Proof.
  intros E. unfold elemwise, tzip. now rewrite E, Nat.eqb_refl.
Qed.

(** The increments of a path shifted by a row are the increments of the
    path. *)
Lemma increments_shift (x : list (list R)) (c : list R) :
  Forall (fun row => length row = length c) x ->
  elemwise row_sub (Vector (tl (map (fun row => row_add row c) x)))
                   (Vector (removelast (map (fun row => row_add row c) x)))
  = elemwise row_sub (Vector (tl x)) (Vector (removelast x)).
Proof.
  intros Hw. rewrite Forall_forall in Hw.
  rewrite !elemwise_rows by (symmetry; apply length_tl_removelast).
  do 2 f_equal.
  rewrite removelast_map.
  replace (tl (map (fun row => row_add row c) x))
    with (map (fun row => row_add row c) (tl x)) by now destruct x.
  assert (E : forall u v : list (list R),
             combine (map (fun row => row_add row c) u) (map (fun row => row_add row c) v)
             = map (fun p => (row_add (fst p) c, row_add (snd p) c)) (combine u v)).
  { induction u as [|u0 u IH]; intros [|v0 v]; simpl; try reflexivity. now rewrite IH. }
  rewrite E, map_map. cbn [fst snd].
  apply map_ext_in. intros [a b] Hin.
  cbn [fst snd]. apply row_sub_shift.
  - apply Hw, In_tl. eapply in_combine_l; eassumption.
  - apply Hw, In_removelast. eapply in_combine_r; eassumption.
Qed.

(** The multivariate walks score a path through its first row and its
    increments only: when [init] gives a row and the row shifted by [c] the
    same score, [logp] of a path and of the path with [c] added to every row
    coincide, whatever the innovation distribution (Normal or Student-T). *)
Theorem multivariate_walk_shift_invariant (self : MvGaussianRandomWalk.t)
    (x : list (list R)) (c : list R) :
  Forall (fun row => length row = length c) x ->
  (forall row : list R,
      multivariate.logp_sum (MvGaussianRandomWalk.init self) (Scalar (row_add row c))
      = multivariate.logp_sum (MvGaussianRandomWalk.init self) (Scalar row)) ->
  MvGaussianRandomWalk.logp self (Vector (map (fun row => row_add row c) x))
  = MvGaussianRandomWalk.logp self (Vector x) /\
  MvStudentTRandomWalk.logp self (Vector (map (fun row => row_add row c) x))
  = MvStudentTRandomWalk.logp self (Vector x).
Proof.
  intros Hw Hinit.
  assert (E : MvGaussianRandomWalk.logp self (Vector (map (fun row => row_add row c) x))
              = MvGaussianRandomWalk.logp self (Vector x)).
  { unfold MvGaussianRandomWalk.logp.
    rewrite !getslice_init, !getslice_tail, !bind_Ok.
    rewrite (increments_shift x c Hw).
    destruct x as [|x0 rest]; [reflexivity|].
    change (map (fun row => row_add row c) (x0 :: rest))
      with (row_add x0 c :: map (fun row => row_add row c) rest).
    rewrite !getitem_head, !bind_Ok.
    now rewrite Hinit. }
  split; exact E.
Qed.

Lemma multivariate_walk_shift_invariant_witness :
  let self := {| MvGaussianRandomWalk.init := flat_rows;
                 MvGaussianRandomWalk.innovArgs :=
                   {| multivariate.mu := Scalar 0; multivariate.cov := None;
                      multivariate.tau := None; multivariate.chol := None;
                      multivariate.lower := true |};
                 MvGaussianRandomWalk.innov := gaussian_rows |} in
  MvGaussianRandomWalk.logp self
    (Vector (map (fun row => row_add row [10; 20]) [[1; 2]; [3; 5]; [4; 4]]))
  = MvGaussianRandomWalk.logp self (Vector [[1; 2]; [3; 5]; [4; 4]]).
Proof.
  intros self.
  apply (multivariate_walk_shift_invariant self [[1; 2]; [3; 5]; [4; 4]] [10; 20]).
  - repeat constructor.
  - reflexivity.
Defined.

(** ** Relations between the distributions *)

(** Euler-Maruyama with constant drift [a] and diffusion [b] and time step
    [dt] is, on every non-empty sequence, the Gaussian random walk with drift
    [dt * a], standard deviation [sqrt dt * b] and the default flat [init]. *)
Theorem EulerMaruyama_constant_is_walk `{NormalDensity} (h a b : R)
    (shape : option (list nat)) (walk : GaussianRandomWalk.t) (x : list R) :
  GaussianRandomWalk.__init__ None None (Some (Scalar (sqrt h * b)))
    (Some (Scalar (h * a))) None shape = Ok walk ->
  (1 <= length x)%nat ->
  EulerMaruyama.logp {| EulerMaruyama.dt := Scalar h;
                        EulerMaruyama.sde_fn := constant_coefficients a b;
                        EulerMaruyama.sde_pars := [] |} (Vector x)
  = GaussianRandomWalk.logp walk (Vector x).
Proof.
  intros Hwalk Hx. destruct x as [|x0 rest]; [simpl in Hx; lia|].
  assert (Hfields : GaussianRandomWalk.mu walk = Scalar (h * a) /\
                    GaussianRandomWalk.sigma walk = Scalar (sqrt h * b) /\
                    GaussianRandomWalk.init walk = Flat.dist).
  { unfold GaussianRandomWalk.__init__ in Hwalk.
    destruct (Nat.eqb (list_sum (default [1%nat] shape)) 0); [discriminate|].
    simpl in Hwalk. injection Hwalk as <-. now repeat split. }
  destruct Hfields as (Hmu & Hsigma & Hinit).
  rewrite (walk_logp_scalar walk (h * a) (sqrt h * b)) by assumption.
  rewrite Hinit.
  change (distribution.logp Flat.dist (Scalar x0)) with (Ok (Scalar 0)).
  rewrite bind_Ok.
  change (tt.add2 (Scalar 0) (Scalar ?s)) with (Ok (Scalar (0 + s))).
  rewrite Rplus_0_l.
  unfold EulerMaruyama.logp; cbn [EulerMaruyama.dt EulerMaruyama.sde_fn
    EulerMaruyama.sde_pars].
  rewrite getslice_init, getslice_tail, !bind_Ok.
  unfold constant_coefficients. rewrite bind_Ok.
  change (tt.mul (Scalar h) (Scalar a)) with (Ok (Scalar (h * a))).
  rewrite bind_Ok.
  unfold tt.add2. rewrite elemwise_vector_scalar, bind_Ok.
  change (tt.mul (tt.sqrt (Scalar h)) (Scalar b)) with (Ok (Scalar (sqrt h * b))).
  rewrite bind_Ok, Normal_dist_sigma, !bind_Ok.
  rewrite Normal_logp_vector
    by (rewrite length_map; apply (length_tl_removelast _ (x0 :: rest))).
  rewrite !bind_Ok.
  change (tl (x0 :: rest)) with rest.
  rewrite combine_map_l, map_map. cbn [fst snd].
  rewrite (adjacent_pairs R (fun u v => logpdf (u + h * a) (/ ((sqrt h * b) ^ 2))
                                          (sqrt h * b) v)).
  reflexivity.
Qed.

Lemma EulerMaruyama_constant_is_walk_witness :
  @EulerMaruyama.logp gaussian
    {| EulerMaruyama.dt := Scalar 4;
       EulerMaruyama.sde_fn := constant_coefficients 3 2;
       EulerMaruyama.sde_pars := [] |} (Vector [1; 3; 2])
  = @GaussianRandomWalk.logp gaussian
      {| GaussianRandomWalk.shape := [3%nat];
         GaussianRandomWalk.tau := Scalar (/ ((sqrt 4 * 2) ^ 2));
         GaussianRandomWalk.sigma := Scalar (sqrt 4 * 2);
         GaussianRandomWalk.mu := Scalar (4 * 3);
         GaussianRandomWalk.init := Flat.dist |} (Vector [1; 3; 2]).
Proof.
  apply (@EulerMaruyama_constant_is_walk gaussian 4 3 2 (Some [3%nat])).
  - reflexivity.
  - simpl; lia.
Defined.

(** AR1 is the lag-one AR without constant whose [init] is the boundary
    distribution Normal(0, tau_e): on every non-empty sequence the two [logp]
    coincide.  The Normal density enters as a location family. *)
Theorem AR1_is_AR_with_boundary `{NormalDensity} (k tau_e : R) (x : list R) :
  (forall mu tau sigma v : R, logpdf mu tau sigma v = logpdf 0 tau sigma (v - mu)) ->
  (1 <= length x)%nat ->
  (self <- AR1.__init__ (Scalar k) (Scalar tau_e) ;; AR1.logp self (Vector x))
  = (self <- AR.__init__ (Vector [k]) None (Some (Scalar tau_e)) false
               (Some (boundary tau_e)) None ;;
     AR.logp self (Vector x)).
Proof.
  intros Hloc Hx. destruct x as [|x0 rest]; [simpl in Hx; lia|].
  assert (E1 : AR1.__init__ (Scalar k) (Scalar tau_e)
               = Ok {| AR1.k := Scalar k; AR1.tau_e := Scalar tau_e;
                       AR1.tau := Scalar (tau_e * (1 - k ^ 2)) |}) by reflexivity.
  rewrite E1, bind_Ok, (AR1_logp_pairs _ k tau_e) by reflexivity.
  set (self := {| AR.sigma := Scalar (/ sqrt tau_e); AR.tau := Scalar tau_e; AR.p := 1;
                  AR.constant := false; AR.rho := Vector [k];
                  AR.init := boundary tau_e |}).
  assert (E2 : AR.__init__ (Vector [k]) None (Some (Scalar tau_e)) false
                 (Some (boundary tau_e)) None = Ok self) by reflexivity.
  rewrite E2, bind_Ok.
  rewrite (AR_logp_positions self (x0 :: rest) 1 tau_e
             (fun i => nth (1 + i) (x0 :: rest) 0 - AR_prediction [k] (x0 :: rest) 0 1 i));
    [| reflexivity | reflexivity
     | exact (AR_eps_positions self [k] (x0 :: rest) 1 eq_refl eq_refl (le_n 1) eq_refl)].
  change (firstn 1 (x0 :: rest)) with [x0].
  change (distribution.logp (AR.init self) (Vector [x0]))
    with (Ok (Vector [normal_tau 0 tau_e x0])).
  rewrite bind_Ok. cbn [tt.total sumR fold_right].
  replace (length (x0 :: rest) - 1)%nat with (length rest) by (simpl; lia).
  do 2 f_equal.
  rewrite Rplus_0_r, Rplus_comm. f_equal. f_equal.
  rewrite <- (seq_shift (length rest) 0), map_map.
  apply map_ext. intros i.
  replace (S i - 1)%nat with i by lia.
  unfold normal_tau, AR_prediction. cbn [seq Nat.sub fold_left Nat.add nth].
  now rewrite Hloc.
Qed.

Lemma AR1_is_AR_with_boundary_witness :
  (self <- AR1.__init__ (Scalar (/ 2)) (Scalar 4) ;; @AR1.logp gaussian self (Vector [1; 3]))
  = (self <- AR.__init__ (Vector [/ 2]) None (Some (Scalar 4)) false
               (Some (@boundary gaussian 4)) None ;;
     @AR.logp gaussian self (Vector [1; 3])).
Proof.
  apply (@AR1_is_AR_with_boundary gaussian (/ 2) 4 [1; 3]).
  - exact gaussian_location.
  - simpl; lia.
Defined.

(** The walk on the empty sequence: under the flat [init] the score of [x[0]]
    needs no element and [logp] is the empty sum; under an [init] that reads
    its argument the index is out of bounds. *)
Example walk_on_empty_sequence (s : R) :
  @GaussianRandomWalk.logp gaussian
    {| GaussianRandomWalk.shape := [1%nat];
       GaussianRandomWalk.tau := Scalar (/ (s ^ 2));
       GaussianRandomWalk.sigma := Scalar s;
       GaussianRandomWalk.mu := Scalar 0;
       GaussianRandomWalk.init := Flat.dist |} (Vector [])
  = Ok (Scalar (0 + 0)) /\
  @GaussianRandomWalk.logp gaussian
    {| GaussianRandomWalk.shape := [1%nat];
       GaussianRandomWalk.tau := Scalar (/ (s ^ 2));
       GaussianRandomWalk.sigma := Scalar s;
       GaussianRandomWalk.mu := Scalar 0;
       GaussianRandomWalk.init := @boundary gaussian 1 |} (Vector [])
  = Raise IndexError.
Proof. split; reflexivity. Qed.
